(** * html-video-remaker: geometry, aspect-fill drawing and the Passthrough
    composition of [index.js]

    JavaScript numbers are modelled as exact rationals ([Q]): the arithmetic
    of the program ([+], [-], [*], [/], the comparisons and [==]) is the
    arithmetic of [Q], compared up to [Qeq].  Rounding error, [NaN] and the
    infinities of IEEE-754 doubles are outside this model.  The module [F64]
    gives the rectangle constructors, [equals] and [inset] a second time, on
    binary64 numbers, for the statements that depend on rounding or on
    [NaN].

    The canvas context and the video elements are external objects; the
    calls the program makes on them are recorded, in order, in a trace. *)

From Stdlib Require Import QArith Qabs Qround ZArith List Bool String Lia Lqa.
From Stdlib Require Import Floats.
Import ListNotations.

Open Scope Q_scope.

(** ** JavaScript comparisons on numbers *)

Module Js.

(** [a == b] on numbers. *)
Definition eq (a b : Q) : bool := Qeq_bool a b.

(** [a <= b] and [a >= b]. *)
Definition le (a b : Q) : bool := Qle_bool a b.
Definition ge (a b : Q) : bool := Qle_bool b a.

(** [a < b]. *)
Definition lt (a b : Q) : bool := negb (Qle_bool b a).

(** [Math.round]: the integer closest to its argument, the one closer to
    plus infinity when two integers are equally close (ECMAScript,
    Math.round). *)
Definition round_int (a : Q) : Z := Qfloor (a + (1 # 2)).
Definition Math_round (a : Q) : Q := inject_Z (round_int a).

End Js.

(** ** Point, Size, Rect *)

Module Point.

Record t : Type := mk { x : Q; y : Q }.

(** [new Point(x, y)] and the copy form [new Point(p)]. *)
Definition new (x0 y0 : Q) : t := mk x0 y0.
Definition copy (p : t) : t := mk (x p) (y p).

(** [this.equals(p)]. *)
Definition equals (this p : t) : bool :=
  Js.eq (x p) (x this) && Js.eq (y p) (y this).

Definition Zero : t := new 0 0.

End Point.

Module Size.

Record t : Type := mk { width : Q; height : Q }.

(** [new Size(width, height)] and the copy form [new Size(s)]. *)
Definition new (w h : Q) : t := mk w h.
Definition copy (s : t) : t := mk (width s) (height s).

(** [this.equals(s)]. *)
Definition equals (this s : t) : bool :=
  Js.eq (width s) (width this) && Js.eq (height s) (height this).

Definition Zero : t := new 0 0.

End Size.

Module Rect.

Record t : Type := mk { origin : Point.t; size : Size.t }.

(** [new Rect(x, y, w, h)] and the copy form [new Rect(r)]. *)
Definition new (x0 y0 w h : Q) : t := mk (Point.new x0 y0) (Size.new w h).
Definition copy (r : t) : t := mk (Point.copy (origin r)) (Size.copy (size r)).

Definition Zero : t := new 0 0 0 0.

Definition minX (this : t) : Q := Point.x (origin this).
Definition midX (this : t) : Q :=
  Point.x (origin this) + Size.width (size this) / 2.
Definition maxX (this : t) : Q :=
  Point.x (origin this) + Size.width (size this).
Definition minY (this : t) : Q := Point.y (origin this).
Definition midY (this : t) : Q :=
  Point.y (origin this) + Size.height (size this) / 2.
Definition maxY (this : t) : Q :=
  Point.y (origin this) + Size.height (size this).

Definition containsPoint (this : t) (p : Point.t) : bool :=
  Js.ge (Point.x p) (minX this) && Js.le (Point.x p) (maxX this)
  && Js.ge (Point.y p) (minY this) && Js.le (Point.y p) (maxY this).

Definition equals (this r : t) : bool :=
  Point.equals (origin r) (origin this) && Size.equals (size r) (size this).

Definition centeredIn (this outer : t) : t :=
  new (minX outer + (Size.width (size outer) - Size.width (size this)) / 2)
      (minY outer + (Size.height (size outer) - Size.height (size this)) / 2)
      (Size.width (size this)) (Size.height (size this)).

Definition alignedToGrid (this : t) : t :=
  new (Js.Math_round (Point.x (origin this)))
      (Js.Math_round (Point.y (origin this)))
      (Js.Math_round (Size.width (size this)))
      (Js.Math_round (Size.height (size this))).

(** The Y origin is moved by [dx], as the source has it. *)
Definition inset (this : t) (dx dy : Q) : t :=
  new (Point.x (origin this) + dx) (Point.y (origin this) + dx)
      (Size.width (size this) - 2 * dx) (Size.height (size this) - 2 * dy).

End Rect.

(** [z] is an integer nearest to [q]. *)
Definition nearest_integer (q : Q) (z : Z) : Prop :=
  forall k : Z, Qabs (inject_Z z - q) <= Qabs (inject_Z k - q).

(** ** Point, Size, Rect on binary64 *)

(** The constructors, [equals] and [inset] of the source with the numbers of
    JavaScript themselves: [+], [-], [*] round to the nearest double and
    [==] is false on [NaN]. *)
Module F64.

Module Point.

Record t : Type := mk { x : float; y : float }.

Definition new (x0 y0 : float) : t := mk x0 y0.
Definition copy (p : t) : t := mk (x p) (y p).

Definition equals (this p : t) : bool :=
  PrimFloat.eqb (x p) (x this) && PrimFloat.eqb (y p) (y this).

End Point.

Module Size.

Record t : Type := mk { width : float; height : float }.

Definition new (w h : float) : t := mk w h.
Definition copy (s : t) : t := mk (width s) (height s).

Definition equals (this s : t) : bool :=
  PrimFloat.eqb (width s) (width this)
  && PrimFloat.eqb (height s) (height this).

End Size.

Module Rect.

Record t : Type := mk { origin : Point.t; size : Size.t }.

Definition new (x0 y0 w h : float) : t :=
  mk (Point.new x0 y0) (Size.new w h).
Definition copy (r : t) : t :=
  mk (Point.copy (origin r)) (Size.copy (size r)).

Definition equals (this r : t) : bool :=
  Point.equals (origin r) (origin this) && Size.equals (size r) (size this).

(** The Y origin is moved by [dx], as the source has it. *)
Definition inset (this : t) (dx dy : float) : t :=
  new (PrimFloat.add (Point.x (origin this)) dx)
      (PrimFloat.add (Point.y (origin this)) dx)
      (PrimFloat.sub (Size.width (size this)) (PrimFloat.mul 2%float dx))
      (PrimFloat.sub (Size.height (size this)) (PrimFloat.mul 2%float dy)).

End Rect.

(** The number is [NaN]. *)
Definition isNaN (f : float) : Prop := Prim2SF f = S754_nan.

(** None of the four fields of the rectangle is [NaN]. *)
Definition no_NaN (r : Rect.t) : Prop :=
  ~ isNaN (Point.x (Rect.origin r)) /\ ~ isNaN (Point.y (Rect.origin r)) /\
  ~ isNaN (Size.width (Rect.size r)) /\ ~ isNaN (Size.height (Rect.size r)).

(** The literals [0.1] and [0.2] of JavaScript (the nearest doubles) and the
    rectangle [new Rect(0.1, 0.1, 1, 1)]. *)
Definition tenth : float := 0x1.999999999999ap-4%float.
Definition fifth : float := 0x1.999999999999ap-3%float.
Definition tenthSquare : Rect.t := Rect.new tenth tenth 1%float 1%float.

End F64.

(** ** External objects: canvas, video elements, drawing context *)

Module Canvas.
Record t : Type := mk { width : Q; height : Q }.
End Canvas.

(** A video element: [id] stands for the identity of the object, the other
    two fields are the properties the drawing routine reads; an object that
    lacks them is outside this record. *)
Module Video.
Record t : Type := mk { id : nat; naturalWidth : Q; naturalHeight : Q }.
End Video.

(** Calls on the 2D context. *)
Inductive CtxOp : Type :=
| Save
| Restore
| BeginPath
| RectPath (x y w h : Q)
| SetFillStyle (style : string)
| Fill
| Clip
| Translate (tx ty : Q)
| Scale (sx sy : Q)
| DrawImage (image : Video.t) (dx dy : Q).

(** Calls on external objects, as they appear in the trace. *)
Inductive Event : Type :=
| VideoPause (v : Video.t)
| VideoPlay (v : Video.t)
| Ctx (op : CtxOp).

Definition is_drawImage (e : Event) : bool :=
  match e with
  | Ctx (DrawImage _ _ _) => true
  | _ => false
  end.

(** ** Values of the fields that start out undefined *)

(** [this.vidIdx]: undefined until [play] assigns it; [undefined++] is NaN. *)
Inductive Index : Type :=
| Undefined
| NaN
| Num (i : Z).

Module Idx.

(** [idx != k] for a number [k]. *)
Definition neq (idx : Index) (k : Z) : bool :=
  match idx with
  | Num i => negb (i =? k)%Z
  | _ => true
  end.

(** [idx == k] for a number [k]. *)
Definition eq (idx : Index) (k : Z) : bool :=
  match idx with
  | Num i => (i =? k)%Z
  | _ => false
  end.

(** [idx++]. *)
Definition incr (idx : Index) : Index :=
  match idx with
  | Num i => Num (i + 1)
  | _ => NaN
  end.

(** [arr[idx]]: undefined ([None]) unless [idx] is an index of [arr]. *)
Definition get {A : Type} (arr : list A) (idx : Index) : option A :=
  match idx with
  | Num i => if (i <? 0)%Z then None else nth_error arr (Z.to_nat i)
  | _ => None
  end.

End Idx.

(** [this.playing]: undefined until [play] or [stop] assigns it. *)
Definition truthy (b : option bool) : bool :=
  match b with
  | Some true => true
  | _ => false
  end.

(** ** Effects: state of the receiver, exceptions, trace of external calls *)

Inductive Error : Type := TypeError.

Inductive Completion (A : Type) : Type :=
| Normal (a : A)
| Throw (e : Error).
Arguments Normal {A} a.
Arguments Throw {A} e.

Section Effects.

Variable St : Type.

Record Result (A : Type) : Type :=
  mkResult { outcome : Completion A; final : St; events : list Event }.

Definition M (A : Type) : Type := St -> Result A.

Definition ret {A : Type} (a : A) : M A :=
  fun s => mkResult A (Normal a) s [].

Definition bind {A B : Type} (m : M A) (f : A -> M B) : M B :=
  fun s =>
    let r := m s in
    match outcome A r with
    | Normal a =>
        let r' := f a (final A r) in
        mkResult B (outcome B r') (final B r') (events A r ++ events B r')
    | Throw e => mkResult B (Throw e) (final A r) (events A r)
    end.

Definition get : M St := fun s => mkResult St (Normal s) s [].
Definition modify (f : St -> St) : M unit :=
  fun s => mkResult unit (Normal tt) (f s) [].
Definition emit (e : Event) : M unit :=
  fun s => mkResult unit (Normal tt) s [e].
Definition throw {A : Type} (e : Error) : M A :=
  fun s => mkResult A (Throw e) s [].

End Effects.

Arguments outcome {St A} r.
Arguments final {St A} r.
Arguments events {St A} r.
Arguments ret {St A} a.
Arguments bind {St A B} m f.
Arguments get {St}.
Arguments modify {St} f.
Arguments emit {St} e.
Arguments throw {St A} e.

Declare Scope js_scope.
Delimit Scope js_scope with js.
Notation "x <- m ;; k" := (bind m (fun x => k))
  (at level 100, m at next level, right associativity) : js_scope.
Notation "m ;; k" := (bind m (fun _ => k))
  (at level 100, right associativity) : js_scope.
Open Scope js_scope.

(** A method call [o.m()] on a possibly undefined [o]. *)
Definition invoke {St : Type} (o : option Video.t) (m : Video.t -> Event)
  : M St unit :=
  match o with
  | Some v => emit (m v)
  | None => throw TypeError
  end.

(** [arr.forEach(f)]. *)
Fixpoint forEach {St A : Type} (arr : list A) (f : A -> M St unit)
  : M St unit :=
  match arr with
  | [] => ret tt
  | a :: rest => f a ;; forEach rest f
  end.

Definition ctx {St : Type} (op : CtxOp) : M St unit := emit (Ctx op).

(** ** [drawImageAspectFill] *)

Module AspectFill.

(** Which of the two branches of the [if (srcAspect < dstAspect)] ran:
    [MatchWidth] computes the scale from the widths, [MatchHeight] from the
    heights. *)
Inductive Branch : Type := MatchWidth | MatchHeight.

Record Placement : Type :=
  mkPlacement { branch : Branch; scale : Q; tx : Q; ty : Q }.

(** The scale and the centring translation computed between [ctx.clip()] and
    [ctx.drawImage]. *)
Definition placement (iw ih : Q) (dstRect : Rect.t) : Placement :=
  let srcAspect := iw / ih in
  let dstAspect :=
    Size.width (Rect.size dstRect) / Size.height (Rect.size dstRect) in
  if Js.lt srcAspect dstAspect then
    let scale := Size.width (Rect.size dstRect) / iw in
    mkPlacement MatchWidth scale
      0 ((Size.height (Rect.size dstRect) - ih * scale) / 2)
  else
    let scale := Size.height (Rect.size dstRect) / ih in
    mkPlacement MatchHeight scale
      ((Size.width (Rect.size dstRect) - iw * scale) / 2) 0.

(** Width and height of the image once scaled. *)
Definition drawnWidth (iw : Q) (p : Placement) : Q := iw * scale p.
Definition drawnHeight (ih : Q) (p : Placement) : Q := ih * scale p.

End AspectFill.

(** [ctx.drawImageAspectFill(image, dstRect)]; reading [image.naturalWidth]
    of an undefined [image] throws. *)
Definition drawImageAspectFill {St : Type}
  (image : option Video.t) (dstRect : Rect.t) : M St unit :=
  match image with
  | None => throw TypeError
  | Some img =>
      let iw := Video.naturalWidth img in
      let ih := Video.naturalHeight img in
      if Js.eq iw 0 || Js.eq ih 0
         || Js.eq (Size.width (Rect.size dstRect)) 0
         || Js.eq (Size.height (Rect.size dstRect)) 0
      then ret tt
      else
        let p := AspectFill.placement iw ih dstRect in
        ctx Save ;;
        ctx (Translate (Point.x (Rect.origin dstRect))
                       (Point.y (Rect.origin dstRect))) ;;
        ctx BeginPath ;;
        ctx (RectPath 0 0 (Size.width (Rect.size dstRect))
                          (Size.height (Rect.size dstRect))) ;;
        ctx Clip ;;
        ctx (Translate (AspectFill.tx p) (AspectFill.ty p)) ;;
        ctx (Scale (AspectFill.scale p) (AspectFill.scale p)) ;;
        ctx (DrawImage img 0 0) ;;
        ctx Restore
  end.

(** ** Compositions *)

(** The receiver [this]: [canvas] and [videos] are set by the constructor of
    [Composition]; [playing] and [vidIdx] are only assigned by the methods of
    [Passthrough] and are undefined before. *)
Record Obj : Type :=
  mkObj { canvas : Canvas.t;
          videos : list Video.t;
          playing : option bool;
          vidIdx : Index }.

Definition set_playing (b : bool) (this : Obj) : Obj :=
  mkObj (canvas this) (videos this) (Some b) (vidIdx this).
Definition set_vidIdx (i : Index) (this : Obj) : Obj :=
  mkObj (canvas this) (videos this) (playing this) i.

Module Composition.

Definition new (c : Canvas.t) (vs : list Video.t) : Obj :=
  mkObj c vs None Undefined.

Definition play : M Obj unit := ret tt.
Definition stop : M Obj unit := ret tt.

(** The hook of the base class draws nothing. *)
Definition drawInContext : M Obj unit := ret tt.

(** [draw()], with the hook of the receiver's class as a parameter. *)
Definition draw (hook : M Obj unit) : M Obj unit :=
  this <- get ;;
  let w := Canvas.width (canvas this) in
  let h := Canvas.height (canvas this) in
  ctx Save ;;
  ctx (RectPath 0 0 w h) ;;
  ctx (SetFillStyle "black") ;;
  ctx Fill ;;
  hook ;;
  ctx Restore.

End Composition.

Module Passthrough.

(** The constructor also registers [handleEnd] for the [ended] event of every
    video: the environment may call [handleEnd] at any time. *)
Definition new (c : Canvas.t) (vs : list Video.t) : Obj := Composition.new c vs.

Definition stop : M Obj unit :=
  modify (set_playing false) ;;
  this <- get ;;
  forEach (videos this) (fun v => emit (VideoPause v)).

Definition playNext : M Obj unit :=
  this <- get ;;
  if (Z.of_nat (List.length (videos this)) =? 0)%Z then ret tt
  else
    (if Idx.neq (vidIdx this) (-1)
     then invoke (Idx.get (videos this) (vidIdx this)) VideoPause
     else ret tt) ;;
    modify (fun o => set_vidIdx (Idx.incr (vidIdx o)) o) ;;
    this <- get ;;
    (if Idx.eq (vidIdx this) (Z.of_nat (List.length (videos this)))
     then modify (set_vidIdx (Num 0))
     else ret tt) ;;
    this <- get ;;
    invoke (Idx.get (videos this) (vidIdx this)) VideoPlay.

Definition play : M Obj unit :=
  stop ;;
  modify (set_playing true) ;;
  modify (set_vidIdx (Num (-1))) ;;
  playNext.

Definition handleEnd : M Obj unit :=
  this <- get ;;
  if truthy (playing this) then playNext else ret tt.

Definition drawInContext : M Obj unit :=
  this <- get ;;
  if negb (truthy (playing this)) then ret tt
  else
    drawImageAspectFill (Idx.get (videos this) (vidIdx this))
      (Rect.new 0 0 (Canvas.width (canvas this)) (Canvas.height (canvas this))).

Definition draw : M Obj unit := Composition.draw drawInContext.

End Passthrough.

(** [Crossfade] inherits every method of [Composition]. *)
Module Crossfade.
Definition new (c : Canvas.t) (vs : list Video.t) : Obj := Composition.new c vs.
Definition play : M Obj unit := Composition.play.
Definition stop : M Obj unit := Composition.stop.
Definition draw : M Obj unit := Composition.draw Composition.drawInContext.
End Crossfade.

(** ** Sequences of calls on a Passthrough composition *)

Inductive Call : Type :=
| CallPlay
| CallStop
| CallPlayNext
| CallHandleEnd
| CallDraw.

Definition call (c : Call) : M Obj unit :=
  match c with
  | CallPlay => Passthrough.play
  | CallStop => Passthrough.stop
  | CallPlayNext => Passthrough.playNext
  | CallHandleEnd => Passthrough.handleEnd
  | CallDraw => Passthrough.draw
  end.

Fixpoint calls (cs : list Call) : M Obj unit :=
  match cs with
  | [] => ret tt
  | c :: rest => call c ;; calls rest
  end.

(** What [draw] leaves in the trace when the hook draws nothing. *)
Definition background (c : Canvas.t) : list Event :=
  [Ctx Save; Ctx (RectPath 0 0 (Canvas.width c) (Canvas.height c));
   Ctx (SetFillStyle "black"); Ctx Fill; Ctx Restore].

(** The index of the receiver is a position of its video list. *)
Definition in_bounds (this : Obj) : Prop :=
  exists (i : Z) (v : Video.t),
    vidIdx this = Num i /\
    (0 <= i < Z.of_nat (List.length (videos this)))%Z /\
    Idx.get (videos this) (vidIdx this) = Some v.

(** The trace holds no [drawImage]. *)
Definition no_frame (t : list Event) : Prop := existsb is_drawImage t = false.

(** ** The page: [go], [drawFrame], [setup] *)

(** The class of a composition object decides which methods run. *)
Inductive Class : Type := IsPassthrough | IsCrossfade.

Record Instance : Type := mkInstance { class : Class; object : Obj }.

Module Method.

Definition play (k : Class) : M Obj unit :=
  match k with
  | IsPassthrough => Passthrough.play
  | IsCrossfade => Crossfade.play
  end.

Definition stop (k : Class) : M Obj unit :=
  match k with
  | IsPassthrough => Passthrough.stop
  | IsCrossfade => Crossfade.stop
  end.

Definition draw (k : Class) : M Obj unit :=
  match k with
  | IsPassthrough => Passthrough.draw
  | IsCrossfade => Crossfade.draw
  end.

End Method.

(** What [go] reads from the document: the [src] of each child of the
    shelf, the value of the mode selector and the output canvas. *)
Module Document.
Record t : Type :=
  mk { shelf : list string; composition_type : string; output : Canvas.t }.
End Document.

(** The state of the page: [window.videoComposition] ([None] when the
    property is absent) and the number of video elements created so far,
    which gives every new element an identity of its own. *)
Record Page : Type :=
  mkPage { videoComposition : option Instance; created : nat }.

Inductive PageEvent : Type :=
| OnComposition (e : Event)
| ConsoleLog (msg arg : string)
| ConsoleError (msg arg : string)
| AddClickListener
| RequestAnimationFrame.

Definition is_requestAnimationFrame (e : PageEvent) : bool :=
  match e with
  | RequestAnimationFrame => true
  | _ => false
  end.

Record PageResult (A : Type) : Type :=
  mkPageResult { page_outcome : Completion A;
                 page_final : Page;
                 page_events : list PageEvent }.
Arguments mkPageResult {A} _ _ _.
Arguments page_outcome {A} _.
Arguments page_final {A} _.
Arguments page_events {A} _.

Definition P (A : Type) : Type := Page -> PageResult A.

Definition pret {A : Type} (a : A) : P A :=
  fun pg => mkPageResult (Normal a) pg [].

Definition pbind {A B : Type} (m : P A) (f : A -> P B) : P B :=
  fun pg =>
    let r := m pg in
    match page_outcome r with
    | Normal a =>
        let r' := f a (page_final r) in
        mkPageResult (page_outcome r') (page_final r')
          (page_events r ++ page_events r')
    | Throw e => mkPageResult (Throw e) (page_final r) (page_events r)
    end.

Definition pget : P Page := fun pg => mkPageResult (Normal pg) pg [].
Definition pmodify (f : Page -> Page) : P unit :=
  fun pg => mkPageResult (Normal tt) (f pg) [].
Definition pemit (e : PageEvent) : P unit :=
  fun pg => mkPageResult (Normal tt) pg [e].

Declare Scope page_scope.
Delimit Scope page_scope with page.
Notation "x <- m ;; k" := (pbind m (fun x => k))
  (at level 100, m at next level, right associativity) : page_scope.
Notation "m ;; k" := (pbind m (fun _ => k))
  (at level 100, right associativity) : page_scope.

(** A method call on [window.videoComposition]; on an absent property it
    throws. *)
Definition on_composition (m : Class -> M Obj unit) : P unit :=
  fun pg =>
    match videoComposition pg with
    | None => mkPageResult (Throw TypeError) pg []
    | Some inst =>
        let r := m (class inst) (object inst) in
        mkPageResult (outcome r)
          (mkPage (Some (mkInstance (class inst) (final r))) (created pg))
          (map OnComposition (events r))
    end.

(** Truthiness of [window.videoComposition]. *)
Definition is_set (c : option Instance) : bool :=
  match c with
  | Some _ => true
  | None => false
  end.

Definition delete_composition (pg : Page) : Page := mkPage None (created pg).
Definition set_composition (inst : Instance) (pg : Page) : Page :=
  mkPage (Some inst) (created pg).
Definition add_created (n : nat) (pg : Page) : Page :=
  mkPage (videoComposition pg) (created pg + n).

Section Page.

(** Natural width and height of the media behind a [src]. *)
Variable media : string -> Q * Q.

(** The loop of [go]: one new video element per child of the shelf, in
    order, with the [src] of the child. *)
Fixpoint copies (srcs : list string) (next : nat) : list Video.t :=
  match srcs with
  | [] => []
  | src :: rest =>
      Video.mk next (fst (media src)) (snd (media src))
      :: copies rest (S next)
  end.

Definition go (doc : Document.t) : P unit :=
  (pg <- pget ;;
   (if is_set (videoComposition pg)
    then on_composition Method.stop ;; pmodify delete_composition
    else pret tt) ;;
   pg <- pget ;;
   let offscreenVids := copies (Document.shelf doc) (created pg) in
   pmodify (add_created (List.length (Document.shelf doc))) ;;
   let mode := Document.composition_type doc in
   pemit (ConsoleLog "Compositing using mode" mode) ;;
   let canvas := Document.output doc in
   if String.eqb mode "nop" then
     pmodify
       (set_composition
          (mkInstance IsPassthrough (Passthrough.new canvas offscreenVids))) ;;
     on_composition Method.play
   else if String.eqb mode "crossfade" then
     pmodify
       (set_composition
          (mkInstance IsCrossfade (Crossfade.new canvas offscreenVids))) ;;
     on_composition Method.play
   else pemit (ConsoleError "Unknown composition mode" mode))%page.

Definition drawFrame : P unit :=
  (pg <- pget ;;
   (if is_set (videoComposition pg)
    then on_composition Method.draw
    else pret tt) ;;
   pemit RequestAnimationFrame)%page.

Definition setup : P unit :=
  (pemit AddClickListener ;; pemit RequestAnimationFrame)%page.

(** A video of the current composition reaches its end: the listener that
    the constructor of [Passthrough] registered runs; [Crossfade] registers
    none. *)
Definition ended : P unit :=
  (pg <- pget ;;
   match videoComposition pg with
   | Some inst =>
       match class inst with
       | IsPassthrough => on_composition (fun _ => Passthrough.handleEnd)
       | IsCrossfade => pret tt
       end
   | None => pret tt
   end)%page.

(** What happens on the page after [setup]: a click on the button with the
    document as it is then, an animation frame, the end of a video. *)
Inductive PageCall : Type :=
| Click (doc : Document.t)
| Frame
| Ended.

Definition page_call (c : PageCall) : P unit :=
  match c with
  | Click doc => go doc
  | Frame => drawFrame
  | Ended => ended
  end.

Fixpoint page_calls (cs : list PageCall) : P unit :=
  match cs with
  | [] => pret tt
  | c :: rest => (page_call c ;; page_calls rest)%page
  end.

End Page.

(** A click with this document does not start a Passthrough composition on
    an empty list. *)
Definition has_videos_if_nop (doc : Document.t) : Prop :=
  Document.composition_type doc = "nop"%string -> Document.shelf doc <> [].

Definition safe_call (c : PageCall) : Prop :=
  match c with
  | Click doc => has_videos_if_nop doc
  | _ => True
  end.

(** The current composition, when it is a Passthrough, has videos and its
    index is one of theirs. *)
Definition healthy (pg : Page) : Prop :=
  match videoComposition pg with
  | Some (mkInstance IsPassthrough o) => videos o <> [] /\ in_bounds o
  | _ => True
  end.

Definition is_frame (c : PageCall) : bool :=
  match c with
  | Frame => true
  | _ => false
  end.

(** The calls by which [go] stops the composition it finds. *)
Definition stopping (pg : Page) : list PageEvent :=
  match videoComposition pg with
  | Some inst =>
      map OnComposition (events (Method.stop (class inst) (object inst)))
  | None => []
  end.

(** Number of [requestAnimationFrame] calls of a trace of the page. *)
Definition frame_requests (t : list PageEvent) : nat :=
  List.length (filter is_requestAnimationFrame t).

(** ** Observations on traces *)

(** Depth of [save] nesting after a trace that starts at depth [d]; [None]
    when a [restore] comes with nothing saved. *)
Fixpoint save_depth (t : list Event) (d : nat) : option nat :=
  match t with
  | [] => Some d
  | Ctx Save :: rest => save_depth rest (S d)
  | Ctx Restore :: rest =>
      match d with
      | O => None
      | S d' => save_depth rest d'
      end
  | _ :: rest => save_depth rest d
  end.

(** Every [save] of the trace is undone by a later [restore] of the trace. *)
Definition balanced (t : list Event) : Prop :=
  save_depth t 0%nat = Some 0%nat.

(** Number of [drawImage] calls of a trace. *)
Definition frames (t : list Event) : nat :=
  List.length (filter is_drawImage t).

Definition is_ctx (e : Event) : bool :=
  match e with
  | Ctx _ => true
  | _ => false
  end.

Definition is_video (e : Event) : bool := negb (is_ctx e).

(** The videos left playing by a trace, by identity: [play()] adds the
    video to those playing before, [pause()] removes it. *)
Fixpoint playing_ids (t : list Event) (before : list nat) : list nat :=
  match t with
  | [] => before
  | VideoPlay v :: rest => playing_ids rest (Video.id v :: before)
  | VideoPause v :: rest =>
      playing_ids rest (remove Nat.eq_dec (Video.id v) before)
  | Ctx _ :: rest => playing_ids rest before
  end.

(** [vs[i]], or [d] when that is undefined. *)
Definition at_index (vs : list Video.t) (d : Video.t) (i : Z) : Video.t :=
  match Idx.get vs (Num i) with
  | Some v => v
  | None => d
  end.

(** Of the videos of the list, only the current one may be playing. *)
Definition only_current_plays (this : Obj) (ids : list nat) : Prop :=
  forall i : nat,
    In i ids -> In i (map Video.id (videos this)) ->
    exists v, Idx.get (videos this) (vidIdx this) = Some v /\ Video.id v = i.

(** ** Sample inputs *)

Module Sample.

Definition clipA : Video.t := Video.mk 0 200 100.
Definition clipB : Video.t := Video.mk 1 640 480.
Definition clipC : Video.t := Video.mk 2 100 100.
Definition output : Canvas.t := Canvas.mk 100 100.

Definition three : Obj := Passthrough.new output [clipA; clipB; clipC].
(** Three videos, the last one current. *)
Definition atLast : Obj :=
  mkObj output [clipA; clipB; clipC] (Some true) (Num 2).

Definition unitSquare : Rect.t := Rect.new 0 0 10 10.
Definition wide : Rect.t := Rect.new 0 0 30 4.

End Sample.

(** ** Properties of the geometry *)

Lemma js_eq_true (a b : Q) : Js.eq a b = true <-> a == b.
Proof. unfold Js.eq. apply Qeq_bool_iff. Qed.

Lemma js_le_true (a b : Q) : Js.le a b = true <-> a <= b.
Proof. unfold Js.le. apply Qle_bool_iff. Qed.

Lemma js_ge_true (a b : Q) : Js.ge a b = true <-> b <= a.
Proof. unfold Js.ge. apply Qle_bool_iff. Qed.

Lemma round_int_bounds (q : Q) :
  inject_Z (Js.round_int q) - (1 # 2) <= q /\
  q < inject_Z (Js.round_int q) + (1 # 2).
Proof.
  unfold Js.round_int.
  pose proof (Qfloor_le (q + (1 # 2))) as Hlo.
  pose proof (Qlt_floor (q + (1 # 2))) as Hhi.
  rewrite inject_Z_plus in Hhi. change (inject_Z 1) with 1 in Hhi.
  split; lra.
Qed.

Lemma round_int_nearest (q : Q) : nearest_integer q (Js.round_int q).
Proof.
  intros k. destruct (round_int_bounds q) as [Hlo Hhi].
  set (z := Js.round_int q) in *.
  assert (Hz : Qabs (inject_Z z - q) <= 1 # 2).
  { apply Qabs_case; intros; lra. }
  destruct (Z.eq_dec k z) as [-> | Hne]; [apply Qle_refl |].
  apply Qle_trans with (1 # 2); [exact Hz |].
  destruct (Z_lt_le_dec k z) as [Hlt | Hge].
  - assert (Hk : inject_Z k + 1 <= inject_Z z).
    { change 1 with (inject_Z 1). rewrite <- inject_Z_plus, <- Zle_Qle. lia. }
    apply Qabs_case; intros; lra.
  - assert (Hk : inject_Z z + 1 <= inject_Z k).
    { change 1 with (inject_Z 1). rewrite <- inject_Z_plus, <- Zle_Qle. lia. }
    apply Qabs_case; intros; lra.
Qed.

Lemma point_equals_true (a b : Point.t) :
  Point.equals a b = true <->
  Point.x b == Point.x a /\ Point.y b == Point.y a.
Proof.
  unfold Point.equals. rewrite andb_true_iff, !js_eq_true. tauto.
Qed.

Lemma size_equals_true (a b : Size.t) :
  Size.equals a b = true <->
  Size.width b == Size.width a /\ Size.height b == Size.height a.
Proof.
  unfold Size.equals. rewrite andb_true_iff, !js_eq_true. tauto.
Qed.

Lemma rect_equals_true (a b : Rect.t) :
  Rect.equals a b = true <->
  (Point.x (Rect.origin b) == Point.x (Rect.origin a) /\
   Point.y (Rect.origin b) == Point.y (Rect.origin a)) /\
  (Size.width (Rect.size b) == Size.width (Rect.size a) /\
   Size.height (Rect.size b) == Size.height (Rect.size a)).
Proof.
  unfold Rect.equals.
  rewrite andb_true_iff, point_equals_true, size_equals_true.
  intuition idtac; symmetry; assumption.
Qed.

(** What [inset] computes, field by field. *)
Lemma inset_fields (R : Rect.t) (dx dy : Q) :
  Rect.inset R dx dy =
  Rect.mk
    (Point.mk (Point.x (Rect.origin R) + dx) (Point.y (Rect.origin R) + dx))
    (Size.mk (Size.width (Rect.size R) - 2 * dx)
             (Size.height (Rect.size R) - 2 * dy)).
Proof. reflexivity. Qed.

(** C3 (the code departs from the claim): [inset(1, 2)] of the rectangle
    (0, 0, 10, 10) has its Y origin at 0 + 1, moved by [dx], and not at
    0 + 2 as shrinking by [dy] on the Y axis requires; the other three fields
    are as the claim says. *)
Theorem inset_y_origin_moved_by_dx :
  let r := Rect.inset Sample.unitSquare 1 2 in
  Point.x (Rect.origin r) == 0 + 1 /\
  Point.y (Rect.origin r) == 0 + 1 /\
  ~ Point.y (Rect.origin r) == 0 + 2 /\
  Size.width (Rect.size r) == 10 - 2 * 1 /\
  Size.height (Rect.size r) == 10 - 2 * 2.
Proof.
  cbv zeta. repeat split; try reflexivity. discriminate.
Qed.

(** C10 (as stated, refuted): on binary64 numbers, the rectangle
    (0.1, 0.1, 1, 1) inset by (0.2, 0.2) and then by (-0.2, -0.2) has its
    origin at 0.1 + 0.2 - 0.2, which rounds to 0.10000000000000003 and not
    to 0.1, and it is not equal to the rectangle by [equals], whichever of
    the two is the receiver. *)
Lemma inset_round_trip_fails_on_binary64 :
  let back :=
    F64.Rect.inset (F64.Rect.inset F64.tenthSquare F64.fifth F64.fifth)
      (PrimFloat.opp F64.fifth) (PrimFloat.opp F64.fifth) in
  F64.Rect.equals back F64.tenthSquare = false /\
  F64.Rect.equals F64.tenthSquare back = false /\
  F64.Point.x (F64.Rect.origin back) = 0x1.999999999999cp-4%float.
Proof.
  cbv zeta. split; [| split]; vm_compute; reflexivity.
Qed.

(** C10 (amended): in exact rational arithmetic, for every rectangle R and
    all numbers dx, dy, insetting by (dx, dy) and then by (-dx, -dy) gives a
    rectangle equal to R by [Rect.equals], whichever of the two is the
    receiver; the Y origin is moved by dx and back by -dx. *)
Theorem inset_round_trip (R : Rect.t) (dx dy : Q) :
  Rect.equals (Rect.inset (Rect.inset R dx dy) (- dx) (- dy)) R = true /\
  Rect.equals R (Rect.inset (Rect.inset R dx dy) (- dx) (- dy)) = true.
Proof.
  rewrite !rect_equals_true, !inset_fields. cbn.
  repeat split; ring.
Qed.

(** C6: for all rectangles R and O, [R.centeredIn(O)] has the size of R and
    the midpoints of O on both axes; its origin is O's origin plus half the
    difference of the sizes, so when R is larger than O on an axis the origin
    lies before O's on that axis: nothing is clamped. *)
Theorem centeredIn_midpoints (R O : Rect.t) :
  let C := Rect.centeredIn R O in
  Rect.size C = Rect.size R /\
  Rect.midX C == Rect.midX O /\
  Rect.midY C == Rect.midY O /\
  Rect.minX C ==
    Rect.minX O + (Size.width (Rect.size O) - Size.width (Rect.size R)) / 2 /\
  Rect.minY C ==
    Rect.minY O + (Size.height (Rect.size O) - Size.height (Rect.size R)) / 2 /\
  (Size.width (Rect.size O) < Size.width (Rect.size R) ->
   Rect.minX C < Rect.minX O /\ Rect.maxX O < Rect.maxX C) /\
  (Size.height (Rect.size O) < Size.height (Rect.size R) ->
   Rect.minY C < Rect.minY O /\ Rect.maxY O < Rect.maxY C).
Proof.
  destruct R as [[rx ry] [rw rh]], O as [[ox oy] [ow oh]].
  cbv [Rect.centeredIn Rect.new Point.new Size.new Rect.midX Rect.midY
       Rect.minX Rect.minY Rect.maxX Rect.maxY Rect.origin Rect.size
       Point.x Point.y Size.width Size.height].
  unfold Qdiv. change (/ 2) with (1 # 2).
  repeat split; try reflexivity; intros; try ring; lra.
Qed.

Lemma centeredIn_midpoints_witness :
  (Size.width (Rect.size Sample.unitSquare)
     < Size.width (Rect.size Sample.wide) /\
   Rect.minX (Rect.centeredIn Sample.wide Sample.unitSquare)
     < Rect.minX Sample.unitSquare /\
   Rect.maxX Sample.unitSquare
     < Rect.maxX (Rect.centeredIn Sample.wide Sample.unitSquare)) /\
  (Size.height (Rect.size Sample.wide)
     < Size.height (Rect.size Sample.unitSquare) /\
   Rect.minY (Rect.centeredIn Sample.unitSquare Sample.wide)
     < Rect.minY Sample.wide /\
   Rect.maxY Sample.wide
     < Rect.maxY (Rect.centeredIn Sample.unitSquare Sample.wide)).
Proof.
  split; (split; [reflexivity |]).
  - apply (centeredIn_midpoints Sample.wide Sample.unitSquare). reflexivity.
  - apply (centeredIn_midpoints Sample.unitSquare Sample.wide). reflexivity.
Defined.

(** C7: for every rectangle R, each of the four fields of
    [R.alignedToGrid()] (origin.x, origin.y, size.width, size.height) is an
    integer, the one [Math.round] gives for the same field of R, and no
    integer is nearer to that field of R. *)
Theorem alignedToGrid_nearest (R : Rect.t) :
  let A := Rect.alignedToGrid R in
  exists zx zy zw zh : Z,
    (Point.x (Rect.origin A) = inject_Z zx /\
     zx = Js.round_int (Point.x (Rect.origin R)) /\
     nearest_integer (Point.x (Rect.origin R)) zx) /\
    (Point.y (Rect.origin A) = inject_Z zy /\
     zy = Js.round_int (Point.y (Rect.origin R)) /\
     nearest_integer (Point.y (Rect.origin R)) zy) /\
    (Size.width (Rect.size A) = inject_Z zw /\
     zw = Js.round_int (Size.width (Rect.size R)) /\
     nearest_integer (Size.width (Rect.size R)) zw) /\
    (Size.height (Rect.size A) = inject_Z zh /\
     zh = Js.round_int (Size.height (Rect.size R)) /\
     nearest_integer (Size.height (Rect.size R)) zh).
Proof.
  cbv zeta.
  exists (Js.round_int (Point.x (Rect.origin R))),
         (Js.round_int (Point.y (Rect.origin R))),
         (Js.round_int (Size.width (Rect.size R))),
         (Js.round_int (Size.height (Rect.size R))).
  repeat split; apply round_int_nearest.
Qed.

(** C8: for every point P and rectangle R, [R.containsPoint(P)] is true
    exactly when minX <= P.x <= maxX and minY <= P.y <= maxY. *)
Theorem containsPoint_inclusive (R : Rect.t) (P : Point.t) :
  Rect.containsPoint R P = true <->
  (Rect.minX R <= Point.x P /\ Point.x P <= Rect.maxX R) /\
  (Rect.minY R <= Point.y P /\ Point.y P <= Rect.maxY R).
Proof.
  unfold Rect.containsPoint.
  rewrite !andb_true_iff, !js_ge_true, !js_le_true. tauto.
Qed.

(** ** Properties of the aspect-fill drawing *)

(** C2 (as stated, refuted): for a 200 x 100 source and the 100 x 100
    destination at the origin, it is not the case that the scale is 0.5,
    computed by the width-matching branch, with both translations zero and a
    drawn content of 100 x 50. *)
Lemma aspectFill_wide_source_not_half :
  let p := AspectFill.placement 200 100 (Rect.new 0 0 100 100) in
  ~ (AspectFill.scale p == 1 # 2 /\
     AspectFill.branch p = AspectFill.MatchWidth /\
     AspectFill.ty p == 0 /\
     AspectFill.tx p == (100 - 200 * (1 # 2)) / 2 /\
     AspectFill.drawnWidth 200 p == 100 /\
     AspectFill.drawnHeight 100 p == 50).
Proof.
  cbv zeta. intros [Hscale _]. vm_compute in Hscale. discriminate.
Qed.

(** C2 (amended): for a 200 x 100 source and a 100 x 100 destination
    anywhere on the canvas, the source aspect 2 is not below the destination
    aspect 1, so the height-matching branch runs: the scale is 1, the
    vertical translation is 0, the horizontal translation is
    (100 - 200 * 1) / 2 = -50, the drawn content is 200 x 100, and the call
    issues the clip to the destination, that translation, that scale and one
    [drawImage], between [save] and [restore]. *)
Theorem aspectFill_wide_source_matches_height (ox oy : Q) (ident : nat) :
  let image := Video.mk ident 200 100 in
  let dst := Rect.new ox oy 100 100 in
  let p := AspectFill.placement 200 100 dst in
  AspectFill.branch p = AspectFill.MatchHeight /\
  AspectFill.scale p == 1 /\
  AspectFill.ty p == 0 /\
  AspectFill.tx p == (100 - 200 * 1) / 2 /\
  AspectFill.tx p == - (50) /\
  AspectFill.drawnWidth 200 p == 200 /\
  AspectFill.drawnHeight 100 p == 100 /\
  forall this : Obj,
    @drawImageAspectFill Obj (Some image) dst this =
    mkResult Obj unit (Normal tt) this
      [Ctx Save; Ctx (Translate ox oy); Ctx BeginPath;
       Ctx (RectPath 0 0 100 100); Ctx Clip;
       Ctx (Translate (AspectFill.tx p) (AspectFill.ty p));
       Ctx (Scale (AspectFill.scale p) (AspectFill.scale p));
       Ctx (DrawImage image 0 0); Ctx Restore].
Proof.
  cbv zeta. repeat split; try reflexivity.
Qed.

(** ** Equations of the effect model *)

Section Runs.

Context {St : Type}.

Lemma result_eta {A : Type} (r : Result St A) :
  mkResult St A (outcome r) (final r) (events r) = r.
Proof. now destruct r. Qed.

Lemma bind_ret {A B : Type} (a : A) (f : A -> M St B) (s : St) :
  bind (ret a) f s = f a s.
Proof. unfold bind, ret. cbn. apply result_eta. Qed.

Lemma bind_get {B : Type} (f : St -> M St B) (s : St) :
  bind get f s = f s s.
Proof. unfold bind, get. cbn. apply result_eta. Qed.

Lemma bind_modify {B : Type} (g : St -> St) (f : unit -> M St B) (s : St) :
  bind (modify g) f s = f tt (g s).
Proof. unfold bind, modify. cbn. apply result_eta. Qed.

Lemma bind_emit {B : Type} (e : Event) (f : unit -> M St B) (s : St) :
  bind (emit e) f s =
  mkResult St B (outcome (f tt s)) (final (f tt s)) (e :: events (f tt s)).
Proof. reflexivity. Qed.

Lemma bind_throw {A B : Type} (e : Error) (f : A -> M St B) (s : St) :
  bind (throw e) f s = mkResult St B (Throw e) s [].
Proof. reflexivity. Qed.

(** A computation that completes normally, then its continuation. *)
Lemma bind_normal {A B : Type} (m : M St A) (f : A -> M St B) (s s1 : St)
  (a : A) (t1 : list Event) :
  m s = mkResult St A (Normal a) s1 t1 ->
  bind m f s =
  mkResult St B (outcome (f a s1)) (final (f a s1)) (t1 ++ events (f a s1)).
Proof. intros Hm. unfold bind. now rewrite Hm. Qed.

End Runs.

Create Rewrite HintDb run.

#[local] Hint Rewrite @bind_ret @bind_get @bind_modify @bind_emit @bind_throw
  : run.

Ltac run := repeat (autorewrite with run; cbn [outcome final events]).

(** ** Properties of the Passthrough composition *)

Lemma get_in_range {A : Type} (arr : list A) (i : Z) :
  (0 <= i < Z.of_nat (List.length arr))%Z ->
  exists a, Idx.get arr (Num i) = Some a.
Proof.
  intros Hi. unfold Idx.get.
  destruct (i <? 0)%Z eqn:Hneg; [apply Z.ltb_lt in Hneg; lia |].
  destruct (nth_error arr (Z.to_nat i)) as [a |] eqn:Hnth; [now exists a |].
  apply nth_error_None in Hnth. lia.
Qed.

Lemma get_negative {A : Type} (arr : list A) (i : Z) :
  (i < 0)%Z -> Idx.get arr (Num i) = None.
Proof.
  intros Hi. unfold Idx.get. apply Z.ltb_lt in Hi. now rewrite Hi.
Qed.

Lemma forEach_pause (vs : list Video.t) (s : Obj) :
  forEach vs (fun v => emit (VideoPause v)) s =
  mkResult Obj unit (Normal tt) s (map VideoPause vs).
Proof.
  induction vs as [| v rest IH]; [reflexivity |].
  cbn [forEach map]. run. now rewrite IH.
Qed.

Lemma stop_run (s : Obj) :
  Passthrough.stop s =
  mkResult Obj unit (Normal tt) (set_playing false s)
    (map VideoPause (videos s)).
Proof.
  unfold Passthrough.stop. run. apply forEach_pause.
Qed.

Lemma playNext_empty (s : Obj) :
  videos s = [] ->
  Passthrough.playNext s = mkResult Obj unit (Normal tt) s [].
Proof.
  intros Hvs. unfold Passthrough.playNext. run. now rewrite Hvs.
Qed.

(** One step of [playNext] from an index in [-1, n). *)
Lemma playNext_run (s : Obj) (i : Z) :
  vidIdx s = Num i ->
  videos s <> [] ->
  (-1 <= i < Z.of_nat (List.length (videos s)))%Z ->
  exists w,
    Idx.get (videos s)
      (Num ((i + 1) mod Z.of_nat (List.length (videos s)))) = Some w /\
    Passthrough.playNext s =
    mkResult Obj unit (Normal tt)
      (set_vidIdx (Num ((i + 1) mod Z.of_nat (List.length (videos s)))) s)
      (match Idx.get (videos s) (Num i) with
       | Some v => [VideoPause v]
       | None => []
       end ++ [VideoPlay w]).
Proof.
  destruct s as [c vs p idx]. cbn [vidIdx videos]. intros -> Hvs Hi.
  assert (Hlen : (1 <= Z.of_nat (List.length vs))%Z)
    by (destruct vs; [congruence | cbn [List.length]; lia]).
  set (n := Z.of_nat (List.length vs)) in *.
  assert (Hj : (0 <= (i + 1) mod n < n)%Z) by (apply Z.mod_pos_bound; lia).
  destruct (get_in_range vs _ Hj) as [w Hw]. exists w. split; [exact Hw |].
  unfold Passthrough.playNext. run. cbn [videos vidIdx]. fold n.
  destruct (n =? 0)%Z eqn:Hn0; [apply Z.eqb_eq in Hn0; lia |].
  destruct (Z.eq_dec i (-1)) as [-> | Hne].
  - rewrite get_negative by lia. cbn [Idx.neq Z.eqb negb Pos.eqb]. run.
    cbn [set_vidIdx videos vidIdx canvas playing Idx.incr Idx.eq]. fold n.
    replace ((-1 + 1) mod n)%Z with 0%Z in * by (rewrite Z.mod_small; lia).
    change (-1 + 1)%Z with 0%Z.
    replace (0 =? n)%Z with false by (symmetry; apply Z.eqb_neq; lia).
    run. cbn [set_vidIdx videos vidIdx]. rewrite Hw. reflexivity.
  - assert (Hi0 : (0 <= i < n)%Z) by lia.
    destruct (get_in_range vs _ Hi0) as [v Hv]. rewrite Hv.
    unfold Idx.neq.
    replace (negb (i =? -1)%Z) with true
      by (symmetry; apply negb_true_iff, Z.eqb_neq; exact Hne).
    unfold invoke at 1. run.
    cbn [set_vidIdx videos vidIdx canvas playing Idx.incr Idx.eq]. fold n.
    destruct (i + 1 =? n)%Z eqn:Hwrap.
    + apply Z.eqb_eq in Hwrap.
      replace ((i + 1) mod n)%Z with 0%Z in *
        by (rewrite Hwrap, Z.mod_same; lia).
      run. cbn [set_vidIdx videos vidIdx canvas playing]. rewrite Hw.
      reflexivity.
    + apply Z.eqb_neq in Hwrap.
      replace ((i + 1) mod n)%Z with (i + 1)%Z in *
        by (rewrite Z.mod_small; lia).
      run. cbn [set_vidIdx videos vidIdx]. rewrite Hw. reflexivity.
Qed.

Lemma play_run (s : Obj) :
  videos s <> [] ->
  exists w,
    Idx.get (videos s) (Num 0) = Some w /\
    Passthrough.play s =
    mkResult Obj unit (Normal tt)
      (mkObj (canvas s) (videos s) (Some true) (Num 0))
      (map VideoPause (videos s) ++ [VideoPlay w]).
Proof.
  intros Hvs. unfold Passthrough.play.
  rewrite (bind_normal _ _ _ _ _ _ (stop_run s)). run.
  set (s1 := set_vidIdx _ _).
  destruct (playNext_run s1 (-1)) as [w [Hw Hrun]];
    [reflexivity | exact Hvs | |].
  { subst s1. cbn [set_vidIdx set_playing videos].
    destruct (videos s); [congruence | cbn [List.length]; lia]. }
  subst s1. cbn [set_vidIdx set_playing videos vidIdx canvas playing] in *.
  assert (Hlen : (1 <= Z.of_nat (List.length (videos s)))%Z)
    by (destruct (videos s); [congruence | cbn [List.length]; lia]).
  replace ((-1 + 1) mod Z.of_nat (List.length (videos s)))%Z with 0%Z in *
    by (rewrite Z.mod_small; lia).
  exists w. split; [exact Hw |].
  rewrite Hrun. cbn [outcome final events].
  rewrite get_negative by lia. reflexivity.
Qed.

Lemma drawImageAspectFill_defined (v : Video.t) (dst : Rect.t) (s : Obj) :
  exists t,
    drawImageAspectFill (Some v) dst s = mkResult Obj unit (Normal tt) s t.
Proof.
  unfold drawImageAspectFill.
  destruct (_ || _); eexists; [| unfold ctx; run]; reflexivity.
Qed.

Lemma drawInContext_not_playing (s : Obj) :
  truthy (playing s) = false ->
  Passthrough.drawInContext s = mkResult Obj unit (Normal tt) s [].
Proof.
  intros Hp. unfold Passthrough.drawInContext. run. now rewrite Hp.
Qed.

Lemma draw_not_playing (s : Obj) :
  truthy (playing s) = false ->
  Passthrough.draw s =
  mkResult Obj unit (Normal tt) s (background (canvas s)).
Proof.
  intros Hp. unfold Passthrough.draw, Composition.draw, ctx. run.
  now rewrite (bind_normal _ _ _ _ _ _ (drawInContext_not_playing s Hp)).
Qed.

Lemma draw_defined (s : Obj) (v : Video.t) :
  Idx.get (videos s) (vidIdx s) = Some v ->
  outcome (Passthrough.draw s) = Normal tt /\ final (Passthrough.draw s) = s.
Proof.
  intros Hget. unfold Passthrough.draw, Composition.draw, ctx. run.
  assert (Hhook : exists t,
    Passthrough.drawInContext s = mkResult Obj unit (Normal tt) s t).
  { unfold Passthrough.drawInContext. run.
    destruct (negb _); [eexists; reflexivity |].
    rewrite Hget. apply drawImageAspectFill_defined. }
  destruct Hhook as [t Ht].
  rewrite (bind_normal _ _ _ _ _ _ Ht). cbn. split; reflexivity.
Qed.

Lemma in_bounds_intro (s : Obj) (i : Z) :
  vidIdx s = Num i ->
  (0 <= i < Z.of_nat (List.length (videos s)))%Z ->
  in_bounds s.
Proof.
  intros Hidx Hi. destruct (get_in_range (videos s) i Hi) as [v Hv].
  exists i, v. rewrite Hidx. auto.
Qed.

Lemma nonempty_length {A : Type} (l : list A) :
  l <> [] -> (1 <= Z.of_nat (List.length l))%Z.
Proof. destruct l; [congruence | cbn [List.length]; lia]. Qed.

Ltac split_all := repeat match goal with |- _ /\ _ => split end.

(** Every call keeps a non-empty video list and an index inside it, and
    returns normally. *)
Lemma call_preserves (c : Call) (s : Obj) :
  videos s <> [] -> in_bounds s ->
  outcome (call c s) = Normal tt /\
  canvas (final (call c s)) = canvas s /\
  videos (final (call c s)) = videos s /\
  in_bounds (final (call c s)).
Proof.
  intros Hvs Hin. pose proof (nonempty_length _ Hvs) as Hlen.
  destruct Hin as (i & v & Hidx & Hi & Hv).
  assert (Hnext : outcome (Passthrough.playNext s) = Normal tt /\
                  canvas (final (Passthrough.playNext s)) = canvas s /\
                  videos (final (Passthrough.playNext s)) = videos s /\
                  in_bounds (final (Passthrough.playNext s))).
  { destruct (playNext_run s i Hidx Hvs) as [w [Hw Hrun]]; [lia |].
    rewrite Hrun. unfold set_vidIdx. cbn [outcome final canvas videos].
    split_all; try reflexivity.
    apply in_bounds_intro
      with ((i + 1) mod Z.of_nat (List.length (videos s)))%Z;
      [reflexivity | cbn [videos]; apply Z.mod_pos_bound; lia]. }
  destruct c; cbn [call].
  - destruct (play_run s Hvs) as [w [Hw Hrun]]. rewrite Hrun.
    cbn [outcome final canvas videos]. split_all; try reflexivity.
    apply in_bounds_intro with 0%Z; [reflexivity | cbn [videos]; lia].
  - rewrite stop_run. unfold set_playing. cbn [outcome final canvas videos].
    split_all; try reflexivity.
    apply in_bounds_intro with i; [exact Hidx | exact Hi].
  - exact Hnext.
  - unfold Passthrough.handleEnd. run.
    destruct (truthy (playing s)); [exact Hnext |].
    cbn [ret outcome final]. split_all; try reflexivity.
    exists i, v. auto.
  - destruct (draw_defined s v Hv) as [Hout Hfin]. rewrite Hout, Hfin.
    split_all; try reflexivity. exists i, v. auto.
Qed.

Lemma calls_preserve (cs : list Call) (s : Obj) :
  videos s <> [] -> in_bounds s ->
  outcome (calls cs s) = Normal tt /\
  canvas (final (calls cs s)) = canvas s /\
  videos (final (calls cs s)) = videos s /\
  in_bounds (final (calls cs s)).
Proof.
  revert s. induction cs as [| c rest IH]; intros s Hvs Hin.
  - cbn. auto.
  - destruct (call_preserves c s Hvs Hin) as (Hout & Hcv & Hvid & Hin').
    cbn [calls]. unfold bind. rewrite Hout.
    cbn [outcome final events].
    destruct (IH (final (call c s))) as (Hout2 & Hcv2 & Hvid2 & Hin2);
      [now rewrite Hvid | exact Hin' |].
    split_all; [exact Hout2 | congruence | congruence | exact Hin2].
Qed.

(** [k] end-of-playback events while playing move the index [k] places
    round the list. *)
Lemma ended_events_advance (k : nat) (s : Obj) (i : Z) :
  videos s <> [] ->
  playing s = Some true ->
  vidIdx s = Num i ->
  (0 <= i < Z.of_nat (List.length (videos s)))%Z ->
  outcome (calls (repeat CallHandleEnd k) s) = Normal tt /\
  final (calls (repeat CallHandleEnd k) s) =
  set_vidIdx (Num ((i + Z.of_nat k) mod Z.of_nat (List.length (videos s)))) s.
Proof.
  revert s i. induction k as [| k IH]; intros s i Hvs Hp Hidx Hi.
  - cbn [repeat calls ret outcome final]. split; [reflexivity |].
    rewrite Z.add_0_r, Z.mod_small by lia.
    destruct s; cbn in *; now subst.
  - pose proof (nonempty_length _ Hvs) as Hlen.
    destruct (playNext_run s i Hidx Hvs) as [w [Hw Hrun]]; [lia |].
    cbn [repeat calls call]. unfold Passthrough.handleEnd at 1 2.
    unfold bind at 1 3. rewrite !bind_get, Hp. cbn [truthy].
    rewrite Hrun. cbn [outcome final events].
    set (n := Z.of_nat (List.length (videos s))) in *.
    destruct (IH (set_vidIdx (Num ((i + 1) mod n)) s) ((i + 1) mod n)%Z)
      as [Hout Hfin]; try assumption; try reflexivity.
    { cbn [set_vidIdx videos]. apply Z.mod_pos_bound. lia. }
    split; [exact Hout |]. rewrite Hfin.
    cbn [set_vidIdx videos canvas playing]. fold n.
    rewrite Z.add_mod_idemp_l by lia.
    replace (i + 1 + Z.of_nat k)%Z with (i + Z.of_nat (S k))%Z by lia.
    reflexivity.
Qed.

(** C1 (the code departs from the claim): with an empty video list, [play()]
    returns with [playing] true and the index at -1; a [draw()] in that
    state fills the background and then throws a TypeError, reading
    [naturalWidth] of the undefined [videos[-1]].  No frame is drawn, but
    the call does not complete and [restore] is never reached; the state is
    unchanged, so every later [draw()] throws again. *)
Theorem draw_after_play_on_empty_list_throws (c : Canvas.t) :
  let started := Passthrough.play (Passthrough.new c []) in
  let fill :=
    [Ctx Save; Ctx (RectPath 0 0 (Canvas.width c) (Canvas.height c));
     Ctx (SetFillStyle "black"); Ctx Fill] in
  outcome started = Normal tt /\
  events started = [] /\
  playing (final started) = Some true /\
  vidIdx (final started) = Num (-1) /\
  Passthrough.draw (final started) =
    mkResult Obj unit (Throw TypeError) (final started) fill /\
  no_frame fill.
Proof.
  cbv zeta. split_all; reflexivity.
Qed.

(** C5: from any state, [stop()] returns normally, sets [playing] to false
    and calls [pause()] on every video of the list, in order, whatever the
    index; a [draw()] after it returns normally, draws no frame and leaves
    just the background fill; a second [stop()] does the same as the
    first. *)
Theorem stop_pauses_all_then_draw_is_background (s : Obj) :
  let r := Passthrough.stop s in
  outcome r = Normal tt /\
  playing (final r) = Some false /\
  canvas (final r) = canvas s /\
  videos (final r) = videos s /\
  vidIdx (final r) = vidIdx s /\
  events r = map VideoPause (videos s) /\
  (let d := Passthrough.draw (final r) in
   outcome d = Normal tt /\
   final d = final r /\
   events d = background (canvas s) /\
   no_frame (events d)) /\
  (let r2 := Passthrough.stop (final r) in
   outcome r2 = Normal tt /\
   final r2 = final r /\
   events r2 = map VideoPause (videos s)).
Proof.
  cbv zeta. rewrite stop_run. cbn [outcome final events].
  rewrite stop_run, draw_not_playing by reflexivity.
  cbn [outcome final events]. unfold set_playing.
  cbn [canvas videos playing vidIdx]. split_all; reflexivity.
Qed.

(** C9: with at least one video, after [play()] and any further sequence of
    [playNext()], [handleEnd()], [stop()], [draw()] and [play()] calls, every
    call has returned normally, the video list is the same, and the index is
    a number in [0, n) at which the list has a video. *)
Theorem vidIdx_in_bounds_after_play (s : Obj) (cs : list Call) :
  videos s <> [] ->
  let r := calls (CallPlay :: cs) s in
  outcome r = Normal tt /\
  videos (final r) = videos s /\
  exists (i : Z) (v : Video.t),
    vidIdx (final r) = Num i /\
    (0 <= i < Z.of_nat (List.length (videos s)))%Z /\
    Idx.get (videos (final r)) (vidIdx (final r)) = Some v.
Proof.
  intros Hvs. cbv zeta. cbn [calls call].
  destruct (play_run s Hvs) as [w [Hw Hrun]].
  rewrite (bind_normal _ _ _ _ _ _ Hrun). cbn [outcome final].
  set (s1 := mkObj _ _ _ _).
  destruct (calls_preserve cs s1) as (Hout & _ & Hvid & Hin).
  { exact Hvs. }
  { apply in_bounds_intro with 0%Z;
      [reflexivity |].
    cbn [s1 videos]. pose proof (nonempty_length _ Hvs). lia. }
  split_all; [exact Hout | exact Hvid |].
  destruct Hin as (i & v & Hidx & Hi & Hv).
  exists i, v. rewrite Hvid in Hi. auto.
Qed.

Lemma vidIdx_in_bounds_after_play_witness :
  videos Sample.three <> [] /\
  let r :=
    calls
      [CallPlay; CallHandleEnd; CallDraw; CallStop; CallHandleEnd;
       CallPlayNext; CallPlayNext; CallPlay; CallHandleEnd; CallDraw]
      Sample.three in
  outcome r = Normal tt /\
  videos (final r) = videos Sample.three /\
  exists (i : Z) (v : Video.t),
    vidIdx (final r) = Num i /\
    (0 <= i < Z.of_nat (List.length (videos Sample.three)))%Z /\
    Idx.get (videos (final r)) (vidIdx (final r)) = Some v.
Proof.
  split; [discriminate |].
  apply (vidIdx_in_bounds_after_play Sample.three
           [CallHandleEnd; CallDraw; CallStop; CallHandleEnd;
            CallPlayNext; CallPlayNext; CallPlay; CallHandleEnd; CallDraw]).
  discriminate.
Defined.

(** C4: on an empty list [playNext()] changes nothing and calls nothing.
    With n >= 1 videos and the index i in [-1, n), it returns normally with
    the index at (i + 1) mod n and the rest of the state unchanged; it calls
    [play()] on the video at the new index, after [pause()] on the video at
    i when i is not -1, and nothing else.  After [play()], k end-of-playback
    events leave the index at k mod n: with three videos the indices visited
    are 0, 1, 2, 0, 1, 2, and so on for every k. *)
Theorem playNext_advances_circularly (s : Obj) :
  (videos s = [] ->
   Passthrough.playNext s = mkResult Obj unit (Normal tt) s []) /\
  (forall i : Z,
     videos s <> [] ->
     vidIdx s = Num i ->
     (-1 <= i < Z.of_nat (List.length (videos s)))%Z ->
     let j := ((i + 1) mod Z.of_nat (List.length (videos s)))%Z in
     let r := Passthrough.playNext s in
     exists w : Video.t,
       Idx.get (videos s) (Num j) = Some w /\
       outcome r = Normal tt /\
       final r = set_vidIdx (Num j) s /\
       (i = (-1)%Z -> events r = [VideoPlay w]) /\
       (i <> (-1)%Z ->
        exists v : Video.t,
          Idx.get (videos s) (Num i) = Some v /\
          events r = [VideoPause v; VideoPlay w])) /\
  (forall k : nat,
     videos s <> [] ->
     let r := (Passthrough.play ;; calls (repeat CallHandleEnd k)) s in
     outcome r = Normal tt /\
     playing (final r) = Some true /\
     vidIdx (final r) =
       Num (Z.of_nat k mod Z.of_nat (List.length (videos s)))) /\
  (List.length (videos s) = 3%nat ->
   map (fun k =>
          vidIdx (final ((Passthrough.play ;;
                          calls (repeat CallHandleEnd k)) s)))
       (seq 0 7) =
   [Num 0; Num 1; Num 2; Num 0; Num 1; Num 2; Num 0]).
Proof.
  assert (Hiter : forall k : nat,
     videos s <> [] ->
     let r := (Passthrough.play ;; calls (repeat CallHandleEnd k)) s in
     outcome r = Normal tt /\
     playing (final r) = Some true /\
     vidIdx (final r) =
       Num (Z.of_nat k mod Z.of_nat (List.length (videos s)))).
  { intros k Hvs. cbv zeta.
    destruct (play_run s Hvs) as [w [Hw Hrun]].
    rewrite (bind_normal _ _ _ _ _ _ Hrun). cbn [outcome final].
    pose proof (nonempty_length _ Hvs) as Hlen.
    destruct (ended_events_advance k
                (mkObj (canvas s) (videos s) (Some true) (Num 0)) 0)
      as [Hout Hfin]; try reflexivity; try assumption.
    { cbn [videos]. lia. }
    rewrite Hout, Hfin. cbn [videos]. unfold set_vidIdx.
    cbn [playing vidIdx]. rewrite Z.add_0_l. split_all; reflexivity. }
  split_all.
  - apply playNext_empty.
  - intros i Hvs Hidx Hi. cbv zeta.
    destruct (playNext_run s i Hidx Hvs Hi) as [w [Hw Hrun]].
    exists w. rewrite Hrun. cbn [outcome final events].
    split_all; try reflexivity; try assumption.
    + intros ->. now rewrite get_negative by lia.
    + intros Hne. destruct (get_in_range (videos s) i) as [v Hv]; [lia |].
      exists v. now rewrite Hv.
  - exact Hiter.
  - intros Hlen.
    assert (Hvs : videos s <> [])
      by (destruct (videos s); [discriminate | congruence]).
    cbn [seq map].
    repeat match goal with
    | |- context [vidIdx (final ((Passthrough.play ;;
                                 calls (repeat CallHandleEnd ?k)) s))] =>
        let H := fresh in
        destruct (Hiter k Hvs) as (_ & _ & H); rewrite H; clear H
    end.
    rewrite Hlen. reflexivity.
Qed.

Lemma playNext_advances_circularly_witness :
  videos Sample.atLast <> [] /\
  vidIdx Sample.atLast = Num 2 /\
  (-1 <= 2 < Z.of_nat (List.length (videos Sample.atLast)))%Z /\
  exists w : Video.t,
    Idx.get (videos Sample.atLast) (Num 0) = Some w /\
    outcome (Passthrough.playNext Sample.atLast) = Normal tt /\
    final (Passthrough.playNext Sample.atLast) =
      set_vidIdx (Num 0) Sample.atLast /\
    (2%Z = (-1)%Z ->
     events (Passthrough.playNext Sample.atLast) = [VideoPlay w]) /\
    (2%Z <> (-1)%Z ->
     exists v : Video.t,
       Idx.get (videos Sample.atLast) (Num 2) = Some v /\
       events (Passthrough.playNext Sample.atLast) =
         [VideoPause v; VideoPlay w]).
Proof.
  split; [discriminate |]. split; [reflexivity |]. split; [cbn; lia |].
  apply (proj1 (proj2 (playNext_advances_circularly Sample.atLast)) 2%Z);
    [discriminate | reflexivity | cbn; lia].
Defined.

(** ** Further properties of the geometry *)

Lemma containsPoint_true (R : Rect.t) (P : Point.t) :
  Rect.containsPoint R P = true <->
  (Rect.minX R <= Point.x P /\ Point.x P <= Rect.maxX R) /\
  (Rect.minY R <= Point.y P /\ Point.y P <= Rect.maxY R).
Proof.
  unfold Rect.containsPoint.
  rewrite !andb_true_iff, !js_ge_true, !js_le_true. tauto.
Qed.

Lemma bool_eq_iff (a b : bool) : (a = true <-> b = true) -> a = b.
Proof. destruct a, b; intuition congruence. Qed.

Ltac rect_fields :=
  cbv [Rect.centeredIn Rect.inset Rect.new Rect.copy Point.new Point.copy
       Size.new Size.copy Rect.midX Rect.midY Rect.minX Rect.minY Rect.maxX
       Rect.maxY Rect.origin Rect.size Point.x Point.y Size.width
       Size.height] in *;
  unfold Qdiv in *; change (/ 2) with (1 # 2) in *.

Lemma SFcompare_refl (s : spec_float) :
  s <> S754_nan -> SFcompare s s = Some Eq.
Proof.
  destruct s as [sg | sg | | sg m e]; intros Hs; try congruence.
  - reflexivity.
  - now destruct sg.
  - cbn. rewrite Z.compare_refl, Pos.compare_cont_refl. now destruct sg.
Qed.

(** [f == f] is true for every double but [NaN]. *)
Lemma float_eqb_refl (f : float) :
  PrimFloat.eqb f f = true <-> ~ F64.isNaN f.
Proof.
  rewrite FloatAxioms.eqb_spec. unfold SFeqb, F64.isNaN. split.
  - intros Heq Hnan. rewrite Hnan in Heq. discriminate.
  - intros Hnan. now rewrite (SFcompare_refl _ Hnan).
Qed.

(** X1: On binary64 numbers, the copy form of the [Rect] constructor (which
    copies the origin and the size by the copy forms of [Point] and [Size])
    gives a rectangle with the same four fields, and it is equal to the
    rectangle copied, by [equals] with either of them as receiver, exactly
    when none of the four fields is [NaN]. *)
Theorem copy_constructors_round_trip (r : F64.Rect.t) :
  let c := F64.Rect.copy r in
  (F64.Point.x (F64.Rect.origin c) = F64.Point.x (F64.Rect.origin r) /\
   F64.Point.y (F64.Rect.origin c) = F64.Point.y (F64.Rect.origin r) /\
   F64.Size.width (F64.Rect.size c) = F64.Size.width (F64.Rect.size r) /\
   F64.Size.height (F64.Rect.size c) = F64.Size.height (F64.Rect.size r)) /\
  (F64.Rect.equals c r = true <-> F64.no_NaN r) /\
  (F64.Rect.equals r c = true <-> F64.no_NaN r).
Proof.
  destruct r as [[rx ry] [rw rh]]. cbv zeta.
  cbv [F64.Rect.copy F64.Point.copy F64.Size.copy F64.Rect.equals
       F64.Point.equals F64.Size.equals F64.no_NaN F64.Rect.origin
       F64.Rect.size F64.Point.x F64.Point.y F64.Size.width
       F64.Size.height].
  rewrite !andb_true_iff, !float_eqb_refl.
  repeat split; try reflexivity; tauto.
Qed.

(** X2: [Rect.equals] is an equivalence on rectangles: every rectangle equals
    itself, the receiver and the argument can be exchanged, and equality
    passes along a chain. *)
Theorem rect_equals_equivalence (a b c : Rect.t) :
  Rect.equals a a = true /\
  Rect.equals a b = Rect.equals b a /\
  (Rect.equals a b = true -> Rect.equals b c = true ->
   Rect.equals a c = true).
Proof.
  split_all.
  - apply rect_equals_true. split_all; reflexivity.
  - apply bool_eq_iff. rewrite !rect_equals_true.
    intuition (symmetry; assumption).
  - rewrite !rect_equals_true.
    intros [[H1 H2] [H3 H4]] [[H5 H6] [H7 H8]].
    split_all; etransitivity; eassumption.
Qed.

Lemma rect_equals_equivalence_witness :
  Rect.equals Sample.unitSquare (Rect.new 0 0 (20 # 2) (30 # 3)) = true /\
  Rect.equals (Rect.new 0 0 (20 # 2) (30 # 3)) (Rect.new 0 0 (40 # 4) 10)
    = true /\
  Rect.equals Sample.unitSquare (Rect.new 0 0 (40 # 4) 10) = true.
Proof.
  split; [reflexivity |]. split; [reflexivity |].
  apply (rect_equals_equivalence Sample.unitSquare
           (Rect.new 0 0 (20 # 2) (30 # 3)) (Rect.new 0 0 (40 # 4) 10));
    reflexivity.
Defined.

(** X3: [containsPoint] gives the same answer on rectangles that are equal by
    [Rect.equals] and points that are equal by [Point.equals]. *)
Theorem containsPoint_respects_equals (R R' : Rect.t) (P P' : Point.t) :
  Rect.equals R R' = true ->
  Point.equals P P' = true ->
  Rect.containsPoint R P = Rect.containsPoint R' P'.
Proof.
  rewrite rect_equals_true, point_equals_true.
  intros [[H1 H2] [H3 H4]] [H5 H6].
  apply bool_eq_iff. rewrite !containsPoint_true.
  unfold Rect.minX, Rect.maxX, Rect.minY, Rect.maxY.
  rewrite H1, H2, H3, H4, H5, H6. tauto.
Qed.

Lemma containsPoint_respects_equals_witness :
  Rect.equals Sample.unitSquare (Rect.new 0 0 (20 # 2) 10) = true /\
  Point.equals (Point.new 5 5) (Point.new (10 # 2) 5) = true /\
  Rect.containsPoint Sample.unitSquare (Point.new 5 5) =
  Rect.containsPoint (Rect.new 0 0 (20 # 2) 10) (Point.new (10 # 2) 5).
Proof.
  split; [reflexivity |]. split; [reflexivity |].
  apply (containsPoint_respects_equals Sample.unitSquare
           (Rect.new 0 0 (20 # 2) 10) (Point.new 5 5)
           (Point.new (10 # 2) 5)); reflexivity.
Defined.

(** X4: The points a rectangle contains form the closed box between
    (minX, minY) and (maxX, maxY), whatever the signs of its sizes: when
    maxX is below minX or maxY below minY it contains no point; when
    minX <= maxX and minY <= maxY it contains its four corners; and with two
    points it contains every point that lies between them on both axes. *)
Theorem containsPoint_closed_box (R : Rect.t) :
  (Rect.maxX R < Rect.minX R \/ Rect.maxY R < Rect.minY R ->
   forall P : Point.t, Rect.containsPoint R P = false) /\
  (Rect.minX R <= Rect.maxX R -> Rect.minY R <= Rect.maxY R ->
   Rect.containsPoint R (Point.new (Rect.minX R) (Rect.minY R)) = true /\
   Rect.containsPoint R (Point.new (Rect.maxX R) (Rect.minY R)) = true /\
   Rect.containsPoint R (Point.new (Rect.minX R) (Rect.maxY R)) = true /\
   Rect.containsPoint R (Point.new (Rect.maxX R) (Rect.maxY R)) = true) /\
  (forall P Q M : Point.t,
     Rect.containsPoint R P = true -> Rect.containsPoint R Q = true ->
     Point.x P <= Point.x M <= Point.x Q ->
     Point.y P <= Point.y M <= Point.y Q ->
     Rect.containsPoint R M = true).
Proof.
  split; [| split].
  - intros Hinv P. apply not_true_is_false. rewrite containsPoint_true.
    intros [[H1 H2] [H3 H4]]. destruct Hinv as [Hx | Hy].
    + apply (Qlt_not_le _ _ Hx). now apply Qle_trans with (Point.x P).
    + apply (Qlt_not_le _ _ Hy). now apply Qle_trans with (Point.y P).
  - intros Hx Hy. rewrite !containsPoint_true.
    cbn [Point.new Point.x Point.y].
    repeat split; solve [assumption | apply Qle_refl].
  - intros P Q M. rewrite !containsPoint_true.
    intros [[P1 _] [P3 _]] [[_ Q2] [_ Q4]] [Hx1 Hx2] [Hy1 Hy2].
    repeat split; eapply Qle_trans; eassumption.
Qed.

Lemma containsPoint_closed_box_witness :
  (Rect.maxX (Rect.new 0 0 (-1) 10) < Rect.minX (Rect.new 0 0 (-1) 10) /\
   Rect.containsPoint (Rect.new 0 0 (-1) 10) (Point.new 0 0) = false) /\
  (Rect.minX Sample.unitSquare <= Rect.maxX Sample.unitSquare /\
   Rect.minY Sample.unitSquare <= Rect.maxY Sample.unitSquare /\
   Rect.containsPoint Sample.unitSquare
     (Point.new (Rect.maxX Sample.unitSquare) (Rect.minY Sample.unitSquare))
   = true) /\
  (Rect.containsPoint Sample.unitSquare (Point.new 1 2) = true /\
   Rect.containsPoint Sample.unitSquare (Point.new 9 8) = true /\
   Point.x (Point.new 1 2) <= Point.x (Point.new 4 7)
     <= Point.x (Point.new 9 8) /\
   Point.y (Point.new 1 2) <= Point.y (Point.new 4 7)
     <= Point.y (Point.new 9 8) /\
   Rect.containsPoint Sample.unitSquare (Point.new 4 7) = true).
Proof.
  assert (Hinv : Rect.maxX (Rect.new 0 0 (-1) 10)
                 < Rect.minX (Rect.new 0 0 (-1) 10)) by reflexivity.
  assert (Hx : Rect.minX Sample.unitSquare <= Rect.maxX Sample.unitSquare)
    by discriminate.
  assert (Hy : Rect.minY Sample.unitSquare <= Rect.maxY Sample.unitSquare)
    by discriminate.
  assert (HP : Rect.containsPoint Sample.unitSquare (Point.new 1 2) = true)
    by reflexivity.
  assert (HQ : Rect.containsPoint Sample.unitSquare (Point.new 9 8) = true)
    by reflexivity.
  assert (Hmx : Point.x (Point.new 1 2) <= Point.x (Point.new 4 7)
                <= Point.x (Point.new 9 8)) by (split; discriminate).
  assert (Hmy : Point.y (Point.new 1 2) <= Point.y (Point.new 4 7)
                <= Point.y (Point.new 9 8)) by (split; discriminate).
  split; [| split].
  - split; [exact Hinv |].
    exact (proj1 (containsPoint_closed_box (Rect.new 0 0 (-1) 10))
             (or_introl Hinv) (Point.new 0 0)).
  - split; [exact Hx |]. split; [exact Hy |].
    exact (proj1 (proj2 (proj1 (proj2 (containsPoint_closed_box
                                         Sample.unitSquare)) Hx Hy))).
  - split; [exact HP |]. split; [exact HQ |].
    split; [exact Hmx |]. split; [exact Hmy |].
    exact (proj2 (proj2 (containsPoint_closed_box Sample.unitSquare))
             (Point.new 1 2) (Point.new 9 8) (Point.new 4 7) HP HQ Hmx Hmy).
Defined.

(** X5: Centring twice in the same outer rectangle gives the very rectangle
    that centring once gives, field for field.  In exact rational
    arithmetic (the sums and halves of doubles round, and the rest holds on
    them up to that rounding only), a rectangle centred in itself is equal
    to itself, and a rectangle of non-negative size no larger than the outer
    one is, once centred, wholly inside the outer one. *)
Theorem centeredIn_stable_and_inside (R O : Rect.t) :
  Rect.centeredIn (Rect.centeredIn R O) O = Rect.centeredIn R O /\
  Rect.equals (Rect.centeredIn (Rect.centeredIn R O) O)
              (Rect.centeredIn R O) = true /\
  Rect.equals (Rect.centeredIn R R) R = true /\
  (0 <= Size.width (Rect.size R) <= Size.width (Rect.size O) ->
   0 <= Size.height (Rect.size R) <= Size.height (Rect.size O) ->
   forall P : Point.t,
     Rect.containsPoint (Rect.centeredIn R O) P = true ->
     Rect.containsPoint O P = true).
Proof.
  destruct R as [[rx ry] [rw rh]], O as [[ox oy] [ow oh]].
  split; [reflexivity |].
  rewrite !rect_equals_true. split_all.
  - reflexivity.
  - reflexivity.
  - reflexivity.
  - reflexivity.
  - rect_fields. ring.
  - rect_fields. ring.
  - reflexivity.
  - reflexivity.
  - intros Hw Hh [px py]. rewrite !containsPoint_true. rect_fields.
    intros [[H1 H2] [H3 H4]]. split_all; lra.
Qed.

Lemma centeredIn_stable_and_inside_witness :
  (0 <= Size.width (Rect.size (Rect.new 7 7 4 2))
     <= Size.width (Rect.size Sample.unitSquare)) /\
  (0 <= Size.height (Rect.size (Rect.new 7 7 4 2))
     <= Size.height (Rect.size Sample.unitSquare)) /\
  Rect.containsPoint
    (Rect.centeredIn (Rect.new 7 7 4 2) Sample.unitSquare)
    (Point.new 3 4) = true /\
  Rect.containsPoint Sample.unitSquare (Point.new 3 4) = true.
Proof.
  assert (Hw : 0 <= Size.width (Rect.size (Rect.new 7 7 4 2))
                 <= Size.width (Rect.size Sample.unitSquare))
    by (split; discriminate).
  assert (Hh : 0 <= Size.height (Rect.size (Rect.new 7 7 4 2))
                 <= Size.height (Rect.size Sample.unitSquare))
    by (split; discriminate).
  assert (Hin : Rect.containsPoint
                  (Rect.centeredIn (Rect.new 7 7 4 2) Sample.unitSquare)
                  (Point.new 3 4) = true) by reflexivity.
  split; [exact Hw |]. split; [exact Hh |]. split; [exact Hin |].
  exact (proj2 (proj2 (proj2 (centeredIn_stable_and_inside
                                (Rect.new 7 7 4 2) Sample.unitSquare)))
           Hw Hh (Point.new 3 4) Hin).
Defined.

(** [Math.round] is determined by the half-open unit interval around an
    integer in which its argument lies. *)
Lemma round_int_unique (q : Q) (z : Z) :
  inject_Z z - (1 # 2) <= q -> q < inject_Z z + (1 # 2) ->
  Js.round_int q = z.
Proof.
  intros Hlo Hhi. destruct (round_int_bounds q) as [Hlo' Hhi'].
  set (f := Js.round_int q) in *.
  destruct (Z_lt_le_dec f z) as [Hlt | Hge].
  - assert (Hk : inject_Z f + 1 <= inject_Z z).
    { change 1 with (inject_Z 1). rewrite <- inject_Z_plus, <- Zle_Qle. lia. }
    lra.
  - destruct (Z_lt_le_dec z f) as [Hlt | Hle]; [| lia].
    assert (Hk : inject_Z z + 1 <= inject_Z f).
    { change 1 with (inject_Z 1). rewrite <- inject_Z_plus, <- Zle_Qle. lia. }
    lra.
Qed.

(** X6: Aligning to the grid twice is the same as aligning once; each field
    moves by at most one half; and a field half way between two integers
    goes to the upper one, also below zero. *)
Theorem alignedToGrid_idempotent_and_close (R : Rect.t) :
  Rect.alignedToGrid (Rect.alignedToGrid R) = Rect.alignedToGrid R /\
  (Qabs (Point.x (Rect.origin (Rect.alignedToGrid R))
         - Point.x (Rect.origin R)) <= 1 # 2 /\
   Qabs (Point.y (Rect.origin (Rect.alignedToGrid R))
         - Point.y (Rect.origin R)) <= 1 # 2 /\
   Qabs (Size.width (Rect.size (Rect.alignedToGrid R))
         - Size.width (Rect.size R)) <= 1 # 2 /\
   Qabs (Size.height (Rect.size (Rect.alignedToGrid R))
         - Size.height (Rect.size R)) <= 1 # 2) /\
  (forall z : Z, Js.Math_round (inject_Z z + (1 # 2)) = inject_Z (z + 1)).
Proof.
  assert (Hclose : forall q, Qabs (Js.Math_round q - q) <= 1 # 2).
  { intros q. unfold Js.Math_round.
    destruct (round_int_bounds q) as [Hlo Hhi].
    apply Qabs_case; intros; lra. }
  assert (Hint : forall q, Js.Math_round (Js.Math_round q) = Js.Math_round q).
  { intros q. unfold Js.Math_round at 1 3. f_equal.
    apply round_int_unique; unfold Js.Math_round; lra. }
  split_all; try apply Hclose.
  - unfold Rect.alignedToGrid, Rect.new, Point.new, Size.new.
    cbn [Rect.origin Rect.size Point.x Point.y Size.width Size.height].
    now rewrite !Hint.
  - intros z. unfold Js.Math_round. f_equal. apply round_int_unique.
    + rewrite inject_Z_plus. change (inject_Z 1) with 1. lra.
    + rewrite inject_Z_plus. change (inject_Z 1) with 1. lra.
Qed.

(** X7: In exact rational arithmetic (the sums, differences and products of
    doubles round, and what follows holds on them up to that rounding
    only): two insets in a row are one inset by the sums of the deltas, and
    an inset by zero changes nothing (by [Rect.equals]).  The X midpoint is
    kept by every inset; with the same delta d on both axes the Y midpoint
    is kept too, and for d >= 0 every point of the inset rectangle is a
    point of the original one. *)
Theorem inset_composes (R : Rect.t) (a b c d : Q) :
  Rect.equals (Rect.inset (Rect.inset R a b) c d)
              (Rect.inset R (a + c) (b + d)) = true /\
  Rect.equals (Rect.inset R 0 0) R = true /\
  Rect.midX (Rect.inset R a b) == Rect.midX R /\
  Rect.midY (Rect.inset R a a) == Rect.midY R /\
  (0 <= a ->
   forall P : Point.t,
     Rect.containsPoint (Rect.inset R a a) P = true ->
     Rect.containsPoint R P = true).
Proof.
  destruct R as [[rx ry] [rw rh]].
  rewrite !rect_equals_true. split_all; try (rect_fields; ring).
  intros Ha [px py]. rewrite !containsPoint_true. rect_fields.
  intros [[H1 H2] [H3 H4]]. split_all; lra.
Qed.

Lemma inset_composes_witness :
  0 <= 2 /\
  Rect.containsPoint (Rect.inset Sample.unitSquare 2 2) (Point.new 3 8)
    = true /\
  Rect.containsPoint Sample.unitSquare (Point.new 3 8) = true.
Proof.
  assert (Ha : 0 <= 2) by discriminate.
  assert (Hin : Rect.containsPoint (Rect.inset Sample.unitSquare 2 2)
                  (Point.new 3 8) = true) by reflexivity.
  split; [exact Ha |]. split; [exact Hin |].
  exact (proj2 (proj2 (proj2 (proj2
           (inset_composes Sample.unitSquare 2 2 0 0))))
           Ha (Point.new 3 8) Hin).
Defined.

(** ** Further properties of the aspect-fill drawing *)

Lemma cross_lt (a b c d : Q) :
  0 < b -> 0 < d -> (a / b < c / d <-> a * d < c * b).
Proof.
  intros Hb Hd.
  assert (Hbd : 0 < b * d) by (apply Qmult_lt_0_compat; assumption).
  assert (Ha : a * d == a / b * (b * d)) by (field; lra).
  assert (Hc : c * b == c / d * (b * d)) by (field; lra).
  rewrite Ha, Hc. symmetry. apply Qmult_lt_r. exact Hbd.
Qed.

(** The two cases of the placement, for positive sizes: the matched axis is
    filled exactly and the other one is at least filled. *)
Lemma placement_cases (iw ih : Q) (dst : Rect.t) :
  0 < iw -> 0 < ih ->
  0 < Size.width (Rect.size dst) -> 0 < Size.height (Rect.size dst) ->
  let p := AspectFill.placement iw ih dst in
  (AspectFill.branch p = AspectFill.MatchWidth /\
   AspectFill.tx p == 0 /\
   AspectFill.drawnWidth iw p == Size.width (Rect.size dst) /\
   Size.height (Rect.size dst) < AspectFill.drawnHeight ih p) \/
  (AspectFill.branch p = AspectFill.MatchHeight /\
   AspectFill.ty p == 0 /\
   AspectFill.drawnHeight ih p == Size.height (Rect.size dst) /\
   Size.width (Rect.size dst) <= AspectFill.drawnWidth iw p).
Proof.
  destruct dst as [[ox oy] [w h]].
  cbn [Rect.size Size.width Size.height]. intros Hiw Hih Hw Hh.
  unfold AspectFill.placement, AspectFill.drawnWidth, AspectFill.drawnHeight.
  cbn [Rect.size Size.width Size.height].
  destruct (Js.lt (iw / ih) (w / h)) eqn:Hlt; cbn [AspectFill.branch
    AspectFill.scale AspectFill.tx AspectFill.ty]; [left | right].
  - unfold Js.lt in Hlt. apply negb_true_iff in Hlt.
    assert (Hcmp : iw / ih < w / h).
    { apply Qnot_le_lt. intros Hle. apply Qle_bool_iff in Hle. congruence. }
    apply (proj1 (cross_lt iw ih w h Hih Hh)) in Hcmp.
    split_all; try reflexivity.
    + field. lra.
    + assert (E : ih * (w / iw) == ih * w / iw) by (field; lra).
      rewrite E. apply Qlt_shift_div_l; [exact Hiw | lra].
  - unfold Js.lt in Hlt. apply negb_false_iff, Qle_bool_iff in Hlt.
    assert (Hcmp : ~ iw / ih < w / h) by (apply Qle_not_lt; exact Hlt).
    rewrite (cross_lt iw ih w h Hih Hh) in Hcmp.
    apply Qnot_lt_le in Hcmp.
    split_all; try reflexivity.
    + field. lra.
    + assert (E : iw * (h / ih) == iw * h / ih) by (field; lra).
      rewrite E. apply Qle_shift_div_l; [exact Hih | lra].
Qed.

(** X8: In exact rational arithmetic (the quotients and products of doubles
    round, and what follows holds on them up to that rounding only): for a
    source and a destination of positive sizes, the scaled image covers the
    destination on both axes and fits it exactly on one, so no band of the
    destination is left undrawn; the single scale is positive and keeps the
    aspect ratio of the source. *)
Theorem aspectFill_covers_destination (iw ih : Q) (dst : Rect.t) :
  0 < iw -> 0 < ih ->
  0 < Size.width (Rect.size dst) -> 0 < Size.height (Rect.size dst) ->
  let p := AspectFill.placement iw ih dst in
  0 < AspectFill.scale p /\
  Size.width (Rect.size dst) <= AspectFill.drawnWidth iw p /\
  Size.height (Rect.size dst) <= AspectFill.drawnHeight ih p /\
  (AspectFill.drawnWidth iw p == Size.width (Rect.size dst) \/
   AspectFill.drawnHeight ih p == Size.height (Rect.size dst)) /\
  AspectFill.drawnWidth iw p * ih == AspectFill.drawnHeight ih p * iw /\
  (AspectFill.tx p <= 0 /\
   Size.width (Rect.size dst)
     <= AspectFill.tx p + AspectFill.drawnWidth iw p) /\
  (AspectFill.ty p <= 0 /\
   Size.height (Rect.size dst)
     <= AspectFill.ty p + AspectFill.drawnHeight ih p).
Proof.
  intros Hiw Hih Hw Hh. cbv zeta.
  pose proof (placement_cases iw ih dst Hiw Hih Hw Hh) as Hcases.
  cbv zeta in Hcases.
  assert (Htx : AspectFill.tx (AspectFill.placement iw ih dst) == 0 \/
                AspectFill.tx (AspectFill.placement iw ih dst) ==
                (Size.width (Rect.size dst)
                 - AspectFill.drawnWidth iw (AspectFill.placement iw ih dst))
                / 2).
  { unfold AspectFill.placement, AspectFill.drawnWidth.
    destruct (Js.lt _ _); cbn [AspectFill.tx AspectFill.scale];
      [left | right]; reflexivity. }
  assert (Hty : AspectFill.ty (AspectFill.placement iw ih dst) == 0 \/
                AspectFill.ty (AspectFill.placement iw ih dst) ==
                (Size.height (Rect.size dst)
                 - AspectFill.drawnHeight ih (AspectFill.placement iw ih dst))
                / 2).
  { unfold AspectFill.placement, AspectFill.drawnHeight.
    destruct (Js.lt _ _); cbn [AspectFill.ty AspectFill.scale];
      [right | left]; reflexivity. }
  assert (Hscale : 0 < AspectFill.scale (AspectFill.placement iw ih dst)).
  { unfold AspectFill.placement.
    destruct (Js.lt _ _); cbn [AspectFill.scale];
      apply Qlt_shift_div_l; lra. }
  unfold AspectFill.drawnWidth, AspectFill.drawnHeight in *.
  set (p := AspectFill.placement iw ih dst) in *.
  set (w := Size.width (Rect.size dst)) in *.
  set (h := Size.height (Rect.size dst)) in *.
  unfold Qdiv in Htx, Hty. change (/ 2) with (1 # 2) in Htx, Hty.
  split; [exact Hscale |].
  split_all; try ring;
    destruct Hcases as [(_ & Hx & Hdw & Hdh) | (_ & Hy & Hdh & Hdw)];
    destruct Htx as [Htx | Htx]; destruct Hty as [Hty | Hty];
    try lra; try (left; lra); try (right; lra).
Qed.

Lemma aspectFill_covers_destination_witness :
  0 < 640 /\ 0 < 480 /\
  0 < Size.width (Rect.size Sample.wide) /\
  0 < Size.height (Rect.size Sample.wide) /\
  Size.height (Rect.size Sample.wide)
    <= AspectFill.drawnHeight 480
         (AspectFill.placement 640 480 Sample.wide).
Proof.
  split; [reflexivity |]. split; [reflexivity |].
  split; [reflexivity |]. split; [reflexivity |].
  apply (aspectFill_covers_destination 640 480 Sample.wide); reflexivity.
Defined.

(** X9: In exact rational arithmetic (the scale and the translation that the
    code computes on doubles are rounded, and the equalities hold on them up
    to that rounding only): whenever the source has non-zero natural width
    and height, the scaled image is centred on the destination: what sticks
    out is cut equally on both sides of each axis. *)
Theorem aspectFill_centred (iw ih : Q) (dst : Rect.t) :
  ~ iw == 0 -> ~ ih == 0 ->
  let p := AspectFill.placement iw ih dst in
  AspectFill.tx p + AspectFill.drawnWidth iw p / 2
    == Size.width (Rect.size dst) / 2 /\
  AspectFill.ty p + AspectFill.drawnHeight ih p / 2
    == Size.height (Rect.size dst) / 2.
Proof.
  intros Hiw Hih. cbv zeta.
  unfold AspectFill.placement, AspectFill.drawnWidth, AspectFill.drawnHeight.
  destruct (Js.lt _ _);
    cbn [AspectFill.tx AspectFill.ty AspectFill.scale];
    split; field; assumption.
Qed.

Lemma aspectFill_centred_witness :
  ~ 200 == 0 /\ ~ 100 == 0 /\
  AspectFill.tx (AspectFill.placement 200 100 Sample.unitSquare)
    + AspectFill.drawnWidth 200
        (AspectFill.placement 200 100 Sample.unitSquare) / 2
    == Size.width (Rect.size Sample.unitSquare) / 2.
Proof.
  split; [discriminate |]. split; [discriminate |].
  apply (aspectFill_centred 200 100 Sample.unitSquare); discriminate.
Defined.

Lemma degenerate_iff (iw ih w h : Q) :
  Js.eq iw 0 || Js.eq ih 0 || Js.eq w 0 || Js.eq h 0 = true <->
  iw == 0 \/ ih == 0 \/ w == 0 \/ h == 0.
Proof. rewrite !orb_true_iff, !js_eq_true. tauto. Qed.

(** X10: On a defined image [drawImageAspectFill] returns normally, leaves the
    receiver as it was, calls only the drawing context and leaves every
    [save] matched by a [restore].  When one of the four sizes is zero it
    makes no call at all; otherwise it makes exactly the nine calls of the
    source, with the clip to the destination before the one [drawImage]. *)
Theorem drawImageAspectFill_trace (v : Video.t) (dst : Rect.t) (s : Obj) :
  let r := drawImageAspectFill (Some v) dst s in
  let iw := Video.naturalWidth v in
  let ih := Video.naturalHeight v in
  let w := Size.width (Rect.size dst) in
  let h := Size.height (Rect.size dst) in
  let p := AspectFill.placement iw ih dst in
  outcome r = Normal tt /\
  final r = s /\
  balanced (events r) /\
  forallb is_ctx (events r) = true /\
  (iw == 0 \/ ih == 0 \/ w == 0 \/ h == 0 -> events r = []) /\
  (~ (iw == 0 \/ ih == 0 \/ w == 0 \/ h == 0) ->
   frames (events r) = 1%nat /\
   events r =
     [Ctx Save;
      Ctx (Translate (Point.x (Rect.origin dst)) (Point.y (Rect.origin dst)));
      Ctx BeginPath; Ctx (RectPath 0 0 w h); Ctx Clip;
      Ctx (Translate (AspectFill.tx p) (AspectFill.ty p));
      Ctx (Scale (AspectFill.scale p) (AspectFill.scale p));
      Ctx (DrawImage v 0 0); Ctx Restore]).
Proof.
  cbv zeta. unfold drawImageAspectFill.
  destruct (_ || _) eqn:Hdeg.
  - split_all; try reflexivity. intros Hnz.
    apply degenerate_iff in Hdeg. contradiction.
  - unfold ctx. run. split_all; try reflexivity.
    + intros Hz. apply degenerate_iff in Hz. congruence.
    + intros _. split; reflexivity.
Qed.

Lemma drawImageAspectFill_trace_witness :
  (Video.naturalWidth (Video.mk 7 0 100) == 0 \/
   Video.naturalHeight (Video.mk 7 0 100) == 0 \/
   Size.width (Rect.size Sample.unitSquare) == 0 \/
   Size.height (Rect.size Sample.unitSquare) == 0) /\
  events (drawImageAspectFill (Some (Video.mk 7 0 100)) Sample.unitSquare
            Sample.three) = [].
Proof.
  assert (Hz : Video.naturalWidth (Video.mk 7 0 100) == 0 \/
               Video.naturalHeight (Video.mk 7 0 100) == 0 \/
               Size.width (Rect.size Sample.unitSquare) == 0 \/
               Size.height (Rect.size Sample.unitSquare) == 0)
    by (left; reflexivity).
  split; [exact Hz |].
  apply (drawImageAspectFill_trace (Video.mk 7 0 100) Sample.unitSquare
           Sample.three). exact Hz.
Defined.

(** ** Further properties of the Passthrough composition *)

Lemma calls_cons (c : Call) (cs : list Call) (s s1 : Obj)
  (t1 : list Event) :
  call c s = mkResult Obj unit (Normal tt) s1 t1 ->
  calls (c :: cs) s =
  mkResult Obj unit (outcome (calls cs s1)) (final (calls cs s1))
    (t1 ++ events (calls cs s1)).
Proof. intros Hc. cbn [calls]. now rewrite (bind_normal _ _ _ _ _ _ Hc). Qed.

Lemma handleEnd_not_playing (s : Obj) :
  truthy (playing s) = false ->
  Passthrough.handleEnd s = mkResult Obj unit (Normal tt) s [].
Proof.
  intros Hp. unfold Passthrough.handleEnd. run. now rewrite Hp.
Qed.

Lemma handleEnd_playing (s : Obj) :
  truthy (playing s) = true ->
  Passthrough.handleEnd s = Passthrough.playNext s.
Proof.
  intros Hp. unfold Passthrough.handleEnd. run. now rewrite Hp.
Qed.

(** X11: [play()] on a non-empty list, from any state: every video is paused, in
    list order, then the first one is started; the composition is playing
    with the index at 0, so a second [play()] ends in the same state. *)
Theorem play_restarts_from_first (s : Obj) (w : Video.t)
  (rest : list Video.t) :
  videos s = w :: rest ->
  Passthrough.play s =
    mkResult Obj unit (Normal tt)
      (mkObj (canvas s) (videos s) (Some true) (Num 0))
      (map VideoPause (videos s) ++ [VideoPlay w]) /\
  final (Passthrough.play (final (Passthrough.play s))) =
    final (Passthrough.play s).
Proof.
  intros Hvs.
  assert (Hne : videos s <> []) by (rewrite Hvs; discriminate).
  destruct (play_run s Hne) as [w' [Hw Hrun]].
  assert (w' = w) by (rewrite Hvs in Hw; cbn in Hw; congruence). subst w'.
  split; [exact Hrun |].
  rewrite Hrun. cbn [final].
  destruct (play_run (mkObj (canvas s) (videos s) (Some true) (Num 0)) Hne)
    as [w2 [_ Hrun2]].
  rewrite Hrun2. reflexivity.
Qed.

Lemma play_restarts_from_first_witness :
  videos Sample.atLast = Sample.clipA :: [Sample.clipB; Sample.clipC] /\
  Passthrough.play Sample.atLast =
    mkResult Obj unit (Normal tt)
      (mkObj (canvas Sample.atLast) (videos Sample.atLast) (Some true)
         (Num 0))
      (map VideoPause (videos Sample.atLast) ++ [VideoPlay Sample.clipA]).
Proof.
  split; [reflexivity |].
  apply (play_restarts_from_first Sample.atLast Sample.clipA
           [Sample.clipB; Sample.clipC]). reflexivity.
Defined.

(** X12: While the composition is not playing, end-of-playback events change
    nothing and call nothing, however many arrive.  That is the case after
    [stop()] and on a composition on which [play()] was never called. *)
Theorem ended_events_inert_when_not_playing (s : Obj) (k : nat) :
  (truthy (playing s) = false ->
   calls (repeat CallHandleEnd k) s = mkResult Obj unit (Normal tt) s []) /\
  calls (CallStop :: repeat CallHandleEnd k) s =
    mkResult Obj unit (Normal tt) (set_playing false s)
      (map VideoPause (videos s)) /\
  calls (repeat CallHandleEnd k) (Passthrough.new (canvas s) (videos s)) =
    mkResult Obj unit (Normal tt) (Passthrough.new (canvas s) (videos s)) [].
Proof.
  assert (Hinert : forall s0, truthy (playing s0) = false ->
            calls (repeat CallHandleEnd k) s0 =
            mkResult Obj unit (Normal tt) s0 []).
  { intros s0 Hp. induction k as [| k IH]; [reflexivity |].
    cbn [repeat].
    rewrite (calls_cons CallHandleEnd _ s0 _ _ (handleEnd_not_playing s0 Hp)).
    now rewrite IH. }
  split_all.
  - apply Hinert.
  - rewrite (calls_cons CallStop _ s _ _ (stop_run s)).
    rewrite Hinert by reflexivity. cbn [outcome final events].
    now rewrite app_nil_r.
  - apply Hinert. reflexivity.
Qed.

Lemma ended_events_inert_when_not_playing_witness :
  truthy (playing (set_playing false Sample.atLast)) = false /\
  calls (repeat CallHandleEnd 4) (set_playing false Sample.atLast) =
    mkResult Obj unit (Normal tt) (set_playing false Sample.atLast) [].
Proof.
  split; [reflexivity |].
  apply (ended_events_inert_when_not_playing
           (set_playing false Sample.atLast) 4). reflexivity.
Defined.

(** X13: On a composition on which [play()] was never called, [draw()] paints
    the background and nothing else; [playNext()] called directly throws a
    TypeError before any call on a video when the list is not empty (the
    index is still undefined), and does nothing when it is empty. *)
Theorem before_first_play (c : Canvas.t) (vs : list Video.t) :
  let fresh := Passthrough.new c vs in
  Passthrough.draw fresh =
    mkResult Obj unit (Normal tt) fresh (background c) /\
  (vs <> [] ->
   Passthrough.playNext fresh = mkResult Obj unit (Throw TypeError) fresh [])
  /\
  (vs = [] ->
   Passthrough.playNext fresh = mkResult Obj unit (Normal tt) fresh []).
Proof.
  cbv zeta. split_all.
  - apply draw_not_playing. reflexivity.
  - intros Hvs. unfold Passthrough.playNext. run.
    destruct vs as [| v rest]; [congruence |]. reflexivity.
  - intros ->. reflexivity.
Qed.

Lemma before_first_play_witness :
  [Sample.clipA] <> [] /\
  Passthrough.playNext (Passthrough.new Sample.output [Sample.clipA]) =
    mkResult Obj unit (Throw TypeError)
      (Passthrough.new Sample.output [Sample.clipA]) [].
Proof.
  split; [discriminate |].
  apply (before_first_play Sample.output [Sample.clipA]). discriminate.
Defined.

(** X14: With a single video, an end-of-playback event while playing pauses that
    video and starts it again; the index stays at 0. *)
Theorem single_source_replays_itself (c : Canvas.t) (v : Video.t) :
  let s := mkObj c [v] (Some true) (Num 0) in
  final (Passthrough.play (Passthrough.new c [v])) = s /\
  Passthrough.handleEnd s =
    mkResult Obj unit (Normal tt) s [VideoPause v; VideoPlay v].
Proof.
  cbv zeta. split; reflexivity.
Qed.

Lemma flat_map_map {A B C : Type} (f : B -> list C) (g : A -> B)
  (l : list A) :
  flat_map f (map g l) = flat_map (fun a => f (g a)) l.
Proof.
  induction l as [| a l IH]; [reflexivity |]. cbn. now rewrite IH.
Qed.

Lemma at_index_in_range (vs : list Video.t) (d : Video.t) (i : Z) :
  (0 <= i < Z.of_nat (List.length vs))%Z ->
  Idx.get vs (Num i) = Some (at_index vs d i).
Proof.
  intros Hi. unfold at_index.
  destruct (get_in_range vs i Hi) as [v Hv]. now rewrite Hv.
Qed.

(** The calls made by [k] end-of-playback events while playing, from the
    index [i]: the current video is paused and the next one, round the
    list, is started, [k] times over. *)
Lemma ended_events_trace (k : nat) (s : Obj) (i : Z) (d : Video.t) :
  videos s <> [] ->
  playing s = Some true ->
  vidIdx s = Num i ->
  (0 <= i < Z.of_nat (List.length (videos s)))%Z ->
  events (calls (repeat CallHandleEnd k) s) =
  flat_map
    (fun j : nat =>
       [VideoPause
          (at_index (videos s) d
             ((i + Z.of_nat j) mod Z.of_nat (List.length (videos s))));
        VideoPlay
          (at_index (videos s) d
             ((i + Z.of_nat j + 1) mod Z.of_nat (List.length (videos s))))])
    (seq 0 k).
Proof.
  revert s i. induction k as [| k IH]; intros s i Hvs Hp Hidx Hi;
    [reflexivity |].
  pose proof (nonempty_length _ Hvs) as Hlen.
  destruct (playNext_run s i Hidx Hvs) as [w [Hw Hrun]]; [lia |].
  set (n := Z.of_nat (List.length (videos s))) in *.
  assert (Hstep : call CallHandleEnd s =
            mkResult Obj unit (Normal tt) (set_vidIdx (Num ((i + 1) mod n)) s)
              [VideoPause (at_index (videos s) d i);
               VideoPlay (at_index (videos s) d ((i + 1) mod n))]).
  { cbn [call]. rewrite handleEnd_playing by (now rewrite Hp).
    rewrite Hrun. rewrite (at_index_in_range (videos s) d i Hi).
    rewrite (at_index_in_range (videos s) d ((i + 1) mod n)) in Hw
      by (apply Z.mod_pos_bound; lia).
    injection Hw as <-. reflexivity. }
  cbn [repeat]. rewrite (calls_cons _ _ _ _ _ Hstep). cbn [events].
  rewrite (IH (set_vidIdx (Num ((i + 1) mod n)) s) ((i + 1) mod n)%Z);
    try assumption; try reflexivity;
    [| cbn [set_vidIdx videos]; apply Z.mod_pos_bound; lia].
  cbn [set_vidIdx videos]. fold n.
  rewrite <- cons_seq, <- seq_shift. cbn [flat_map].
  rewrite flat_map_map.
  cbn [app]. change (Z.of_nat 0) with 0%Z.
  rewrite Z.add_0_r, (Z.mod_small i n) by lia.
  do 2 f_equal. apply flat_map_ext. intros j.
  assert (E1 : (((i + 1) mod n + Z.of_nat j) mod n
                = (i + Z.of_nat (S j)) mod n)%Z)
    by (rewrite Z.add_mod_idemp_l by lia; f_equal; lia).
  assert (E2 : (((i + 1) mod n + Z.of_nat j + 1) mod n
                = (i + Z.of_nat (S j) + 1) mod n)%Z)
    by (rewrite <- Z.add_assoc, Z.add_mod_idemp_l by lia; f_equal; lia).
  rewrite E1, E2. reflexivity.
Qed.

(** X15: After [play()] on a non-empty list, [k] end-of-playback events leave
    this trace: every video paused, the first one started, then, for each
    event in turn, the current video paused and the next one round the list
    started.  No two videos are started without a pause of the first in
    between. *)
Theorem playback_trace (s : Obj) (w : Video.t) (rest : list Video.t)
  (k : nat) :
  videos s = w :: rest ->
  events ((Passthrough.play ;; calls (repeat CallHandleEnd k)) s) =
  map VideoPause (videos s) ++
  VideoPlay w ::
  flat_map
    (fun j : nat =>
       [VideoPause
          (at_index (videos s) w
             (Z.of_nat j mod Z.of_nat (List.length (videos s))));
        VideoPlay
          (at_index (videos s) w
             ((Z.of_nat j + 1) mod Z.of_nat (List.length (videos s))))])
    (seq 0 k).
Proof.
  intros Hvs.
  assert (Hne : videos s <> []) by (rewrite Hvs; discriminate).
  destruct (play_run s Hne) as [w' [Hw Hrun]].
  assert (w' = w) by (rewrite Hvs in Hw; cbn in Hw; congruence). subst w'.
  rewrite (bind_normal _ _ _ _ _ _ Hrun). cbn [events].
  rewrite (ended_events_trace k _ 0 w); try assumption; try reflexivity;
    [| cbn [videos]; pose proof (nonempty_length _ Hne); lia].
  cbn [videos]. rewrite <- app_assoc. reflexivity.
Qed.

Lemma playback_trace_witness :
  videos Sample.three = Sample.clipA :: [Sample.clipB; Sample.clipC] /\
  events ((Passthrough.play ;; calls (repeat CallHandleEnd 4)) Sample.three) =
  [VideoPause Sample.clipA; VideoPause Sample.clipB; VideoPause Sample.clipC;
   VideoPlay Sample.clipA;
   VideoPause Sample.clipA; VideoPlay Sample.clipB;
   VideoPause Sample.clipB; VideoPlay Sample.clipC;
   VideoPause Sample.clipC; VideoPlay Sample.clipA;
   VideoPause Sample.clipA; VideoPlay Sample.clipB].
Proof.
  split; [reflexivity |].
  exact (playback_trace Sample.three Sample.clipA
           [Sample.clipB; Sample.clipC] 4 eq_refl).
Defined.

Lemma drawImageAspectFill_ctx_only (v : Video.t) (dst : Rect.t) (s : Obj) :
  exists t,
    drawImageAspectFill (Some v) dst s = mkResult Obj unit (Normal tt) s t /\
    forallb is_ctx t = true /\
    (forall d, save_depth t d = Some d) /\
    (frames t <= 1)%nat /\
    (forall img dx dy, In (Ctx (DrawImage img dx dy)) t -> img = v).
Proof.
  unfold drawImageAspectFill. destruct (_ || _).
  - exists []. split_all; try reflexivity.
    + cbn. lia.
    + intros ? ? ? [].
  - unfold ctx. run. eexists. split; [reflexivity |]. split_all.
    + reflexivity.
    + intros d. reflexivity.
    + cbn. lia.
    + intros img dx dy Hin. cbn in Hin.
      repeat (destruct Hin as [Hin | Hin]; [congruence |]).
      destruct Hin.
Qed.

Lemma draw_playing (s : Obj) (v : Video.t) :
  truthy (playing s) = true ->
  Idx.get (videos s) (vidIdx s) = Some v ->
  Passthrough.draw s =
  mkResult Obj unit (Normal tt) s
    ([Ctx Save;
      Ctx (RectPath 0 0 (Canvas.width (canvas s)) (Canvas.height (canvas s)));
      Ctx (SetFillStyle "black"); Ctx Fill] ++
     events (@drawImageAspectFill Obj (Some v)
               (Rect.new 0 0 (Canvas.width (canvas s))
                  (Canvas.height (canvas s))) s) ++
     [Ctx Restore]).
Proof.
  intros Hp Hget.
  destruct (drawImageAspectFill_ctx_only v
              (Rect.new 0 0 (Canvas.width (canvas s))
                 (Canvas.height (canvas s))) s) as (t & Ht & _).
  assert (Hhook : Passthrough.drawInContext s =
                  mkResult Obj unit (Normal tt) s t).
  { unfold Passthrough.drawInContext. run. now rewrite Hp, Hget. }
  unfold Passthrough.draw, Composition.draw, ctx. run.
  rewrite (bind_normal _ _ _ _ _ _ Hhook). rewrite Ht. reflexivity.
Qed.

Lemma save_depth_app (t1 t2 : list Event) (d d1 : nat) :
  save_depth t1 d = Some d1 ->
  save_depth (t1 ++ t2) d = save_depth t2 d1.
Proof.
  revert d. induction t1 as [| e t1 IH]; intros d H.
  - cbn in *. congruence.
  - destruct e as [v | v | op]; cbn [app save_depth] in *; try now apply IH.
    destruct op; try now apply IH.
    destruct d; [discriminate | now apply IH].
Qed.

Lemma frames_app (t1 t2 : list Event) :
  frames (t1 ++ t2) = (frames t1 + frames t2)%nat.
Proof. unfold frames. now rewrite filter_app, length_app. Qed.

(** X16: While playing with the index at a video of the list, [draw()]
    returns normally and leaves the receiver as it was.  Its calls are the
    background fill, then the calls of [drawImageAspectFill] for the current
    video and the whole canvas, then [restore]: only the drawing context is
    called, every [save] is matched, at most one frame is drawn and it is a
    frame of the current video; on a canvas with a zero side nothing but
    the background is drawn. *)
Theorem draw_draws_current_video (s : Obj) (v : Video.t) :
  truthy (playing s) = true ->
  Idx.get (videos s) (vidIdx s) = Some v ->
  let r := Passthrough.draw s in
  let whole :=
    Rect.new 0 0 (Canvas.width (canvas s)) (Canvas.height (canvas s)) in
  outcome r = Normal tt /\
  final r = s /\
  events r =
    [Ctx Save;
     Ctx (RectPath 0 0 (Canvas.width (canvas s)) (Canvas.height (canvas s)));
     Ctx (SetFillStyle "black"); Ctx Fill] ++
    events (@drawImageAspectFill Obj (Some v) whole s) ++ [Ctx Restore] /\
  balanced (events r) /\
  forallb is_ctx (events r) = true /\
  (frames (events r) <= 1)%nat /\
  (forall img dx dy, In (Ctx (DrawImage img dx dy)) (events r) -> img = v) /\
  (Canvas.width (canvas s) == 0 \/ Canvas.height (canvas s) == 0 ->
   events r = background (canvas s)).
Proof.
  intros Hp Hget. cbv zeta. rewrite (draw_playing s v Hp Hget).
  cbn [outcome final events].
  destruct (drawImageAspectFill_ctx_only v
              (Rect.new 0 0 (Canvas.width (canvas s))
                 (Canvas.height (canvas s))) s)
    as (t & Ht & Hctx & Hdepth & Hframes & Himg).
  split_all; try reflexivity.
  - rewrite Ht. cbn [events]. unfold balanced. cbn [app save_depth].
    rewrite (save_depth_app t [Ctx Restore] 1 1 (Hdepth 1%nat)). reflexivity.
  - rewrite Ht. cbn [events app forallb is_ctx andb].
    rewrite forallb_app, Hctx. reflexivity.
  - rewrite Ht. cbn [events].
    change ([Ctx Save; ?a; ?b; ?c] ++ t ++ [Ctx Restore])
      with ([Ctx Save; a; b; c] ++ (t ++ [Ctx Restore])).
    rewrite !frames_app. cbn. rewrite Nat.add_0_r. exact Hframes.
  - rewrite Ht. cbn [events]. intros img dx dy Hin.
    cbn [app In] in Hin.
    repeat (destruct Hin as [Hin | Hin]; [discriminate |]).
    apply in_app_or in Hin. destruct Hin as [Hin | Hin];
      [now apply (Himg img dx dy) |].
    destruct Hin as [Hin | []]. discriminate.
  - intros Hz. unfold drawImageAspectFill.
    cbn [Rect.new Rect.size Size.new Size.width Size.height].
    assert (Hdeg : Js.eq (Video.naturalWidth v) 0
                   || Js.eq (Video.naturalHeight v) 0
                   || Js.eq (Canvas.width (canvas s)) 0
                   || Js.eq (Canvas.height (canvas s)) 0 = true)
      by (apply degenerate_iff; tauto).
    rewrite Hdeg. reflexivity.
Qed.

Lemma draw_draws_current_video_witness :
  truthy (playing Sample.atLast) = true /\
  Idx.get (videos Sample.atLast) (vidIdx Sample.atLast) = Some Sample.clipC /\
  balanced (events (Passthrough.draw Sample.atLast)) /\
  (frames (events (Passthrough.draw Sample.atLast)) <= 1)%nat.
Proof.
  split; [reflexivity |]. split; [reflexivity |].
  pose proof (draw_draws_current_video Sample.atLast Sample.clipC
                eq_refl eq_refl) as H.
  cbv zeta in H. destruct H as (_ & _ & _ & Hbal & _ & Hfr & _).
  split; [exact Hbal | exact Hfr].
Defined.

Lemma forallb_video_pauses (vs : list Video.t) :
  forallb is_video (map VideoPause vs) = true.
Proof. induction vs as [| v vs IH]; [reflexivity | exact IH]. Qed.

Ltac split_run :=
  repeat (run;
          cbn [set_vidIdx set_playing videos vidIdx canvas playing invoke];
          try match goal with
              | |- context [if ?b then _ else _] => destruct b eqn:?
              | |- context [invoke ?o _] => destruct o eqn:?
              end).

(** In any state, [playNext()] keeps the canvas, the video list and the
    playing flag, and calls only videos. *)
Lemma playNext_any (s : Obj) :
  canvas (final (Passthrough.playNext s)) = canvas s /\
  videos (final (Passthrough.playNext s)) = videos s /\
  playing (final (Passthrough.playNext s)) = playing s /\
  forallb is_video (events (Passthrough.playNext s)) = true.
Proof.
  destruct s as [c vs p idx]. unfold Passthrough.playNext.
  split_run; cbn; auto.
Qed.

Lemma draw_any (s : Obj) :
  final (Passthrough.draw s) = s /\
  forallb is_ctx (events (Passthrough.draw s)) = true.
Proof.
  destruct (truthy (playing s)) eqn:Hp.
  - destruct (Idx.get (videos s) (vidIdx s)) as [v |] eqn:Hget.
    + rewrite (draw_playing s v Hp Hget). cbn [final events].
      destruct (drawImageAspectFill_ctx_only v
                  (Rect.new 0 0 (Canvas.width (canvas s))
                     (Canvas.height (canvas s))) s) as (t & Ht & Hctx & _).
      rewrite Ht. cbn [events app forallb is_ctx andb].
      rewrite forallb_app, Hctx. split; reflexivity.
    + assert (Hhook : Passthrough.drawInContext s =
                      mkResult Obj unit (Throw TypeError) s []).
      { unfold Passthrough.drawInContext. run. now rewrite Hp, Hget. }
      unfold Passthrough.draw, Composition.draw, ctx. run.
      unfold bind. rewrite Hhook. split; reflexivity.
  - rewrite (draw_not_playing s Hp). split; reflexivity.
Qed.

(** X17: In every state, and also when the call throws: [draw()] leaves the
    receiver as it was and calls nothing but the drawing context; [play()],
    [stop()], [playNext()] and [handleEnd()] keep the canvas and the video
    list of the receiver and call nothing but videos. *)
Theorem methods_keep_to_their_objects (s : Obj) :
  (final (Passthrough.draw s) = s /\
   forallb is_ctx (events (Passthrough.draw s)) = true) /\
  (canvas (final (Passthrough.play s)) = canvas s /\
   videos (final (Passthrough.play s)) = videos s /\
   forallb is_video (events (Passthrough.play s)) = true) /\
  (canvas (final (Passthrough.stop s)) = canvas s /\
   videos (final (Passthrough.stop s)) = videos s /\
   forallb is_video (events (Passthrough.stop s)) = true) /\
  (canvas (final (Passthrough.playNext s)) = canvas s /\
   videos (final (Passthrough.playNext s)) = videos s /\
   forallb is_video (events (Passthrough.playNext s)) = true) /\
  (canvas (final (Passthrough.handleEnd s)) = canvas s /\
   videos (final (Passthrough.handleEnd s)) = videos s /\
   forallb is_video (events (Passthrough.handleEnd s)) = true).
Proof.
  split; [apply draw_any |].
  assert (Hnext : forall s0,
            canvas (final (Passthrough.playNext s0)) = canvas s0 /\
            videos (final (Passthrough.playNext s0)) = videos s0 /\
            forallb is_video (events (Passthrough.playNext s0)) = true).
  { intros s0. destruct (playNext_any s0) as (H1 & H2 & _ & H4). auto. }
  split_all; try apply Hnext.
  - unfold Passthrough.play.
    rewrite (bind_normal _ _ _ _ _ _ (stop_run s)). run.
    now rewrite (proj1 (Hnext _)).
  - unfold Passthrough.play.
    rewrite (bind_normal _ _ _ _ _ _ (stop_run s)). run.
    now rewrite (proj1 (proj2 (Hnext _))).
  - unfold Passthrough.play.
    rewrite (bind_normal _ _ _ _ _ _ (stop_run s)). run.
    rewrite forallb_app, forallb_video_pauses.
    now rewrite (proj2 (proj2 (Hnext _))).
  - now rewrite stop_run.
  - now rewrite stop_run.
  - rewrite stop_run. apply forallb_video_pauses.
  - unfold Passthrough.handleEnd. run.
    destruct (truthy (playing s)); [apply Hnext | reflexivity].
  - unfold Passthrough.handleEnd. run.
    destruct (truthy (playing s)); [apply Hnext | reflexivity].
  - unfold Passthrough.handleEnd. run.
    destruct (truthy (playing s)); [apply Hnext | reflexivity].
Qed.

Lemma playing_ids_app (t1 t2 : list Event) (a : list nat) :
  playing_ids (t1 ++ t2) a = playing_ids t2 (playing_ids t1 a).
Proof.
  revert a. induction t1 as [| e t1 IH]; intros a; [reflexivity |].
  destruct e; cbn [app playing_ids]; apply IH.
Qed.

Lemma playing_ids_ctx_only (t : list Event) (a : list nat) :
  forallb is_ctx t = true -> playing_ids t a = a.
Proof.
  revert a. induction t as [| e t IH]; intros a Ht; [reflexivity |].
  destruct e; cbn in Ht; try discriminate. cbn [playing_ids]. now apply IH.
Qed.

Lemma playing_ids_pauses (vs : list Video.t) (a : list nat) (i : nat) :
  In i (playing_ids (map VideoPause vs) a) ->
  In i a /\ ~ In i (map Video.id vs).
Proof.
  revert a. induction vs as [| v vs IH]; intros a Hin.
  - cbn in *. auto.
  - cbn [map playing_ids] in Hin. apply IH in Hin. destruct Hin as [Ha Hn].
    apply in_remove in Ha. destruct Ha as [Ha Hne].
    split; [exact Ha |]. cbn [map In]. intros [Heq | Hin]; auto.
Qed.

Lemma call_keeps_only_current (c : Call) (s : Obj) (a : list nat) :
  videos s <> [] -> in_bounds s -> only_current_plays s a ->
  only_current_plays (final (call c s)) (playing_ids (events (call c s)) a).
Proof.
  intros Hvs Hin Hone. pose proof (nonempty_length _ Hvs) as Hlen.
  destruct Hin as (i & v & Hidx & Hi & Hv).
  assert (Hnext : only_current_plays (final (Passthrough.playNext s))
                    (playing_ids (events (Passthrough.playNext s)) a)).
  { destruct (playNext_run s i Hidx Hvs) as [w [Hw Hrun]]; [lia |].
    rewrite Hrun. cbn [final events]. rewrite Hidx in Hv. rewrite Hv.
    cbn [app playing_ids]. intros k Hk Hown.
    unfold set_vidIdx in *. cbn [videos vidIdx] in *.
    destruct Hk as [<- | Hk]; [now exists w |].
    apply in_remove in Hk. destruct Hk as [Hk Hne].
    destruct (Hone k Hk Hown) as (v' & Hv' & Hid).
    rewrite Hidx in Hv'. congruence. }
  destruct c; cbn [call].
  - destruct (play_run s Hvs) as [w [Hw Hrun]]. rewrite Hrun.
    cbn [final events]. rewrite playing_ids_app. cbn [playing_ids].
    intros k Hk Hown. cbn [videos vidIdx] in *.
    destruct Hk as [<- | Hk]; [now exists w |].
    apply playing_ids_pauses in Hk. tauto.
  - rewrite stop_run. cbn [final events]. intros k Hk Hown.
    unfold set_playing in *. cbn [videos vidIdx] in *.
    apply playing_ids_pauses in Hk. tauto.
  - exact Hnext.
  - unfold Passthrough.handleEnd. run.
    destruct (truthy (playing s)); [exact Hnext | exact Hone].
  - destruct (draw_any s) as [Hfin Hctx].
    rewrite Hfin, (playing_ids_ctx_only _ _ Hctx). exact Hone.
Qed.

Lemma calls_keep_only_current (cs : list Call) (s : Obj) (a : list nat) :
  videos s <> [] -> in_bounds s -> only_current_plays s a ->
  only_current_plays (final (calls cs s)) (playing_ids (events (calls cs s)) a).
Proof.
  revert s a. induction cs as [| c rest IH]; intros s a Hvs Hin Hone;
    [exact Hone |].
  destruct (call_preserves c s Hvs Hin) as (Hout & _ & Hvid & Hin').
  assert (Hc : call c s = mkResult Obj unit (Normal tt) (final (call c s))
                            (events (call c s)))
    by (rewrite <- Hout; symmetry; apply result_eta).
  rewrite (calls_cons _ _ _ _ _ Hc). cbn [final events].
  rewrite playing_ids_app. apply IH; [now rewrite Hvid | exact Hin' |].
  now apply call_keeps_only_current.
Qed.

(** X18: One video at a time: after [play()] on a non-empty list and any further
    calls, whichever videos were playing before, a video of the list that
    the trace leaves playing is the current one, [videos[vidIdx]]. *)
Theorem one_video_at_a_time (s : Obj) (cs : list Call) (before : list nat) :
  videos s <> [] ->
  let r := calls (CallPlay :: cs) s in
  forall i : nat,
    In i (playing_ids (events r) before) ->
    In i (map Video.id (videos s)) ->
    exists v,
      Idx.get (videos (final r)) (vidIdx (final r)) = Some v /\
      Video.id v = i.
Proof.
  intros Hvs. cbv zeta.
  destruct (play_run s Hvs) as [w [Hw Hrun]].
  rewrite (calls_cons CallPlay _ _ _ _ Hrun). cbn [final events].
  set (s1 := mkObj _ _ _ _). rewrite playing_ids_app.
  assert (Hin1 : in_bounds s1).
  { apply in_bounds_intro with 0%Z; [reflexivity |].
    cbn [s1 videos]. pose proof (nonempty_length _ Hvs). lia. }
  assert (Hone1 : only_current_plays s1
            (playing_ids (map VideoPause (videos s) ++ [VideoPlay w]) before)).
  { rewrite playing_ids_app. cbn [playing_ids].
    intros k Hk Hown. cbn [s1 videos vidIdx] in *.
    destruct Hk as [<- | Hk]; [now exists w |].
    apply playing_ids_pauses in Hk. tauto. }
  pose proof (calls_keep_only_current cs s1 _ Hvs Hin1 Hone1) as Hfinal.
  destruct (calls_preserve cs s1 Hvs Hin1) as (_ & _ & Hvid & _).
  intros i Hi Hown. apply Hfinal; [exact Hi |].
  rewrite Hvid. exact Hown.
Qed.

Lemma one_video_at_a_time_witness :
  videos Sample.three <> [] /\
  In 2%nat
    (playing_ids
       (events (calls [CallPlay; CallHandleEnd; CallDraw; CallPlayNext]
                  Sample.three)) [0%nat; 1%nat; 2%nat; 9%nat]) /\
  In 2%nat (map Video.id (videos Sample.three)) /\
  exists v,
    Idx.get
      (videos (final (calls [CallPlay; CallHandleEnd; CallDraw; CallPlayNext]
                        Sample.three)))
      (vidIdx (final (calls [CallPlay; CallHandleEnd; CallDraw; CallPlayNext]
                        Sample.three))) = Some v /\
    Video.id v = 2%nat.
Proof.
  assert (Hvs : videos Sample.three <> []) by discriminate.
  assert (Hplays :
    In 2%nat
      (playing_ids
         (events (calls [CallPlay; CallHandleEnd; CallDraw; CallPlayNext]
                    Sample.three)) [0%nat; 1%nat; 2%nat; 9%nat]))
    by (left; reflexivity).
  assert (Hown : In 2%nat (map Video.id (videos Sample.three)))
    by (right; right; left; reflexivity).
  split; [exact Hvs |]. split; [exact Hplays |]. split; [exact Hown |].
  exact (one_video_at_a_time Sample.three
           [CallHandleEnd; CallDraw; CallPlayNext]
           [0%nat; 1%nat; 2%nat; 9%nat] Hvs 2%nat Hplays Hown).
Defined.

(** X19: [draw()] throws exactly when the composition is playing and
    [videos[vidIdx]] is undefined; it then leaves one [save] without its
    [restore].  In every other state it returns normally with every [save]
    matched. *)
Theorem draw_throws_iff_source_undefined (s : Obj) :
  (outcome (Passthrough.draw s) = Throw TypeError <->
   truthy (playing s) = true /\ Idx.get (videos s) (vidIdx s) = None) /\
  (outcome (Passthrough.draw s) = Normal tt <->
   balanced (events (Passthrough.draw s))) /\
  (outcome (Passthrough.draw s) = Throw TypeError <->
   save_depth (events (Passthrough.draw s)) 0 = Some 1%nat).
Proof.
  destruct (truthy (playing s)) eqn:Hp.
  - destruct (Idx.get (videos s) (vidIdx s)) as [v |] eqn:Hget.
    + rewrite (draw_playing s v Hp Hget). cbn [outcome events].
      destruct (drawImageAspectFill_ctx_only v
                  (Rect.new 0 0 (Canvas.width (canvas s))
                     (Canvas.height (canvas s))) s) as (t & Ht & _ & Hd & _).
      rewrite Ht. cbn [events]. unfold balanced. cbn [app save_depth].
      rewrite (save_depth_app t [Ctx Restore] 1 1 (Hd 1%nat)).
      cbn [save_depth]. split_all; split; intros H; try reflexivity;
        try discriminate; destruct H; discriminate.
    + assert (Hhook : Passthrough.drawInContext s =
                      mkResult Obj unit (Throw TypeError) s []).
      { unfold Passthrough.drawInContext. run. now rewrite Hp, Hget. }
      unfold Passthrough.draw, Composition.draw, ctx. run.
      unfold bind. rewrite Hhook. cbn [outcome events]. unfold balanced.
      cbn [save_depth]. split_all; split; intros H; try reflexivity;
        try discriminate; auto.
  - rewrite (draw_not_playing s Hp). cbn [outcome events].
    unfold balanced, background. cbn [save_depth].
    split_all; split; intros H; try reflexivity; try discriminate;
      destruct H; discriminate.
Qed.

(** ** Properties of the page *)

Lemma page_result_eta {A : Type} (r : PageResult A) :
  mkPageResult (page_outcome r) (page_final r) (page_events r) = r.
Proof. now destruct r. Qed.

Lemma pbind_pret {A B : Type} (a : A) (f : A -> P B) (pg : Page) :
  pbind (pret a) f pg = f a pg.
Proof. unfold pbind, pret. cbn. apply page_result_eta. Qed.

Lemma pbind_pget {B : Type} (f : Page -> P B) (pg : Page) :
  pbind pget f pg = f pg pg.
Proof. unfold pbind, pget. cbn. apply page_result_eta. Qed.

Lemma pbind_pmodify {B : Type} (g : Page -> Page) (f : unit -> P B)
  (pg : Page) :
  pbind (pmodify g) f pg = f tt (g pg).
Proof. unfold pbind, pmodify. cbn. apply page_result_eta. Qed.

Lemma pbind_pemit {B : Type} (e : PageEvent) (f : unit -> P B) (pg : Page) :
  pbind (pemit e) f pg =
  mkPageResult (page_outcome (f tt pg)) (page_final (f tt pg))
    (e :: page_events (f tt pg)).
Proof. reflexivity. Qed.

Lemma pbind_normal {A B : Type} (m : P A) (f : A -> P B) (pg pg1 : Page)
  (a : A) (t1 : list PageEvent) :
  m pg = mkPageResult (Normal a) pg1 t1 ->
  pbind m f pg =
  mkPageResult (page_outcome (f a pg1)) (page_final (f a pg1))
    (t1 ++ page_events (f a pg1)).
Proof. intros Hm. unfold pbind. now rewrite Hm. Qed.

Lemma pbind_thrown {A B : Type} (m : P A) (f : A -> P B) (pg pg1 : Page)
  (e : Error) (t1 : list PageEvent) :
  m pg = mkPageResult (Throw e) pg1 t1 ->
  pbind m f pg = mkPageResult (Throw e) pg1 t1.
Proof. intros Hm. unfold pbind. now rewrite Hm. Qed.

Create Rewrite HintDb prun.

#[local] Hint Rewrite @pbind_pret @pbind_pget @pbind_pmodify @pbind_pemit
  : prun.

Ltac prun :=
  repeat (autorewrite with prun;
          cbn [page_outcome page_final page_events]).

Lemma play_empty (s : Obj) :
  videos s = [] ->
  Passthrough.play s =
  mkResult Obj unit (Normal tt)
    (mkObj (canvas s) [] (Some true) (Num (-1))) [].
Proof.
  intros Hvs. unfold Passthrough.play.
  rewrite (bind_normal _ _ _ _ _ _ (stop_run s)). run.
  rewrite playNext_empty by (cbn; exact Hvs).
  unfold set_vidIdx, set_playing. cbn. now rewrite Hvs.
Qed.

Lemma method_stop_normal (k : Class) (o : Obj) :
  outcome (Method.stop k o) = Normal tt.
Proof. destruct k; cbn [Method.stop]; [now rewrite stop_run | reflexivity]. Qed.

(** The first statement of [go]: the composition found is stopped and the
    property deleted. *)
Lemma go_stops_previous (pg : Page) :
  (if is_set (videoComposition pg)
   then (on_composition Method.stop ;; pmodify delete_composition)%page
   else pret tt) pg =
  mkPageResult (Normal tt) (mkPage None (created pg)) (stopping pg).
Proof.
  destruct pg as [[inst |] n]; cbn [videoComposition is_set stopping];
    [| reflexivity].
  unfold pbind, on_composition. cbn [videoComposition created].
  rewrite method_stop_normal. cbn. now rewrite app_nil_r.
Qed.

Section PageProperties.

Variable media : string -> Q * Q.

Lemma copies_length (srcs : list string) (next : nat) :
  List.length (copies media srcs next) = List.length srcs.
Proof.
  revert next. induction srcs as [| src rest IH]; intros next;
    [reflexivity |].
  cbn [copies List.length]. now rewrite IH.
Qed.

Lemma copies_ids (srcs : list string) (next : nat) :
  map Video.id (copies media srcs next) = seq next (List.length srcs).
Proof.
  revert next. induction srcs as [| src rest IH]; intros next;
    [reflexivity |].
  cbn [copies map List.length seq Video.id]. now rewrite IH.
Qed.

(** The part of [go] up to the [switch]. *)
Lemma go_run (doc : Document.t) (pg : Page) :
  go media doc pg =
  let vids := copies media (Document.shelf doc) (created pg) in
  let pg1 := mkPage None (created pg + List.length (Document.shelf doc)) in
  let mode := Document.composition_type doc in
  let rest :=
    (if String.eqb mode "nop" then
       pmodify
         (set_composition
            (mkInstance IsPassthrough
               (Passthrough.new (Document.output doc) vids))) ;;
       on_composition Method.play
     else if String.eqb mode "crossfade" then
       pmodify
         (set_composition
            (mkInstance IsCrossfade
               (Crossfade.new (Document.output doc) vids))) ;;
       on_composition Method.play
     else pemit (ConsoleError "Unknown composition mode" mode))%page pg1 in
  mkPageResult (page_outcome rest) (page_final rest)
    (stopping pg ++
     ConsoleLog "Compositing using mode" mode :: page_events rest).
Proof.
  unfold go. prun.
  rewrite (pbind_normal _ _ _ _ _ _ (go_stops_previous pg)).
  prun. cbn [created]. reflexivity.
Qed.

End PageProperties.

Lemma method_play_normal (k : Class) (o : Obj) :
  outcome (Method.play k o) = Normal tt.
Proof.
  destruct k; cbn [Method.play]; [| reflexivity].
  destruct (videos o) as [| v rest] eqn:Hvs.
  - now rewrite (play_empty o Hvs).
  - assert (Hne : videos o <> []) by (rewrite Hvs; discriminate).
    destruct (play_run o Hne) as [w [_ Hrun]]. now rewrite Hrun.
Qed.

(** X20: A click with a mode other than "nop" and "crossfade": the composition
    found is stopped and removed, the mode and the error are logged, no
    composition is created, and [go] returns normally; the frames that
    follow draw nothing and keep the frame loop going. *)
Theorem go_unknown_mode (media : string -> Q * Q) (doc : Document.t)
  (pg : Page) :
  Document.composition_type doc <> "nop"%string ->
  Document.composition_type doc <> "crossfade"%string ->
  let after :=
    mkPage None (created pg + List.length (Document.shelf doc)) in
  go media doc pg =
    mkPageResult (Normal tt) after
      (stopping pg ++
       [ConsoleLog "Compositing using mode" (Document.composition_type doc);
        ConsoleError "Unknown composition mode"
          (Document.composition_type doc)]) /\
  drawFrame after = mkPageResult (Normal tt) after [RequestAnimationFrame].
Proof.
  intros Hnop Hcross. cbv zeta. split; [| reflexivity].
  rewrite go_run. cbv zeta.
  apply String.eqb_neq in Hnop. apply String.eqb_neq in Hcross.
  rewrite Hnop, Hcross. reflexivity.
Qed.

Lemma go_unknown_mode_witness :
  "fade"%string <> "nop"%string /\
  "fade"%string <> "crossfade"%string /\
  go (fun _ => (640, 480))
     (Document.mk ["a.mp4"%string] "fade" Sample.output)
     (mkPage (Some (mkInstance IsPassthrough Sample.atLast)) 3) =
  mkPageResult (Normal tt) (mkPage None 4)
    [OnComposition (VideoPause Sample.clipA);
     OnComposition (VideoPause Sample.clipB);
     OnComposition (VideoPause Sample.clipC);
     ConsoleLog "Compositing using mode" "fade";
     ConsoleError "Unknown composition mode" "fade"].
Proof.
  split; [discriminate |]. split; [discriminate |].
  apply (go_unknown_mode (fun _ => (640, 480))
           (Document.mk ["a.mp4"%string] "fade" Sample.output)
           (mkPage (Some (mkInstance IsPassthrough Sample.atLast)) 3));
    discriminate.
Defined.

(** X21: Whatever the document and the page, [go] returns normally.  Its first
    calls stop the composition it finds: [pause()] on every video of a
    Passthrough, nothing for a Crossfade.  Then it logs the mode.  The
    composition it leaves, if any, is on the output canvas and has one new
    video per child of the shelf, in order, numbered from the count of the
    elements created before. *)
Theorem go_stops_then_replaces (media : string -> Q * Q) (doc : Document.t)
  (pg : Page) :
  let r := go media doc pg in
  page_outcome r = Normal tt /\
  (exists rest,
     page_events r =
     stopping pg ++
     ConsoleLog "Compositing using mode" (Document.composition_type doc)
     :: rest) /\
  (forall o, videoComposition pg = Some (mkInstance IsPassthrough o) ->
     stopping pg = map OnComposition (map VideoPause (videos o))) /\
  (forall o, videoComposition pg = Some (mkInstance IsCrossfade o) ->
     stopping pg = []) /\
  created (page_final r) =
    (created pg + List.length (Document.shelf doc))%nat /\
  (forall inst, videoComposition (page_final r) = Some inst ->
     canvas (object inst) = Document.output doc /\
     List.length (videos (object inst)) = List.length (Document.shelf doc) /\
     map Video.id (videos (object inst)) =
       seq (created pg) (List.length (Document.shelf doc))).
Proof.
  cbv zeta. rewrite go_run. cbv zeta.
  cbn [page_outcome page_final page_events].
  set (vids := copies media (Document.shelf doc) (created pg)).
  assert (Hfresh : forall k (o : Obj),
            canvas o = Document.output doc -> videos o = vids ->
            let r := on_composition Method.play
                       (mkPage (Some (mkInstance k o))
                          (created pg + List.length (Document.shelf doc))) in
            page_outcome r = Normal tt /\
            created (page_final r) =
              (created pg + List.length (Document.shelf doc))%nat /\
            (forall inst, videoComposition (page_final r) = Some inst ->
               canvas (object inst) = Document.output doc /\
               List.length (videos (object inst)) =
                 List.length (Document.shelf doc) /\
               map Video.id (videos (object inst)) =
                 seq (created pg) (List.length (Document.shelf doc)))).
  { intros k o Hc Hv. cbv zeta. unfold on_composition.
    cbn [videoComposition class object created page_outcome page_final].
    split; [apply method_play_normal |]. split; [reflexivity |].
    intros inst Hinst. injection Hinst as <-. cbn [object].
    assert (Hkeep : canvas (final (Method.play k o)) = canvas o /\
                    videos (final (Method.play k o)) = videos o).
    { destruct k; cbn [Method.play]; [| split; reflexivity].
      unfold Passthrough.play.
      rewrite (bind_normal _ _ _ _ _ _ (stop_run o)). run.
      destruct (playNext_any
                  (set_vidIdx (Num (-1))
                     (set_playing true (set_playing false o))))
        as (H1 & H2 & _). rewrite H1, H2. split; reflexivity. }
    destruct Hkeep as [-> ->]. rewrite Hc, Hv. unfold vids.
    rewrite copies_length, copies_ids. split_all; reflexivity. }
  split_all.
  - destruct (String.eqb _ "nop"); [| destruct (String.eqb _ "crossfade")];
      prun; try reflexivity; apply Hfresh; reflexivity.
  - eexists. reflexivity.
  - intros o Ho. unfold stopping. rewrite Ho. cbn [class object Method.stop].
    now rewrite stop_run.
  - intros o Ho. unfold stopping. rewrite Ho. reflexivity.
  - destruct (String.eqb _ "nop"); [| destruct (String.eqb _ "crossfade")];
      prun; try reflexivity; apply Hfresh; reflexivity.
  - destruct (String.eqb _ "nop"); [| destruct (String.eqb _ "crossfade")];
      prun; try (intros inst Hinst; discriminate Hinst);
      apply Hfresh; reflexivity.
Qed.

Lemma go_stops_then_replaces_witness :
  videoComposition (mkPage (Some (mkInstance IsPassthrough Sample.atLast)) 3)
    = Some (mkInstance IsPassthrough Sample.atLast) /\
  stopping (mkPage (Some (mkInstance IsPassthrough Sample.atLast)) 3) =
    map OnComposition (map VideoPause (videos Sample.atLast)).
Proof.
  split; [reflexivity |].
  apply (go_stops_then_replaces (fun _ => (640, 480))
           (Document.mk ["a.mp4"%string] "nop" Sample.output)
           (mkPage (Some (mkInstance IsPassthrough Sample.atLast)) 3)).
  reflexivity.
Defined.

(** X22: A click in mode "nop" with a non-empty shelf: after the stop of the
    composition found and the log of the mode, every new video is paused
    and the first one is started; the page holds a Passthrough composition
    over the new videos, playing, with the index at 0. *)
Theorem go_nop_starts_first_video (media : string -> Q * Q)
  (doc : Document.t) (pg : Page) (first : Video.t) (others : list Video.t) :
  Document.composition_type doc = "nop"%string ->
  copies media (Document.shelf doc) (created pg) = first :: others ->
  go media doc pg =
    mkPageResult (Normal tt)
      (mkPage
         (Some (mkInstance IsPassthrough
                  (mkObj (Document.output doc) (first :: others) (Some true)
                     (Num 0))))
         (created pg + List.length (Document.shelf doc)))
      (stopping pg ++
       ConsoleLog "Compositing using mode" "nop"
       :: map OnComposition
            (map VideoPause (first :: others) ++ [VideoPlay first])).
Proof.
  intros Hmode Hvids. rewrite go_run. cbv zeta. rewrite Hmode, Hvids.
  cbn [String.eqb Ascii.eqb Bool.eqb]. prun.
  unfold on_composition, set_composition.
  cbn [videoComposition class object created Method.play].
  assert (Hne : videos (Passthrough.new (Document.output doc)
                          (first :: others)) <> []) by discriminate.
  destruct (play_run _ Hne)
    as [w [Hw Hrun]].
  cbn in Hw. injection Hw as <-. rewrite Hrun. reflexivity.
Qed.

Lemma go_nop_starts_first_video_witness :
  Document.composition_type
    (Document.mk ["a.mp4"; "b.mp4"]%string "nop" Sample.output)
    = "nop"%string /\
  copies (fun _ => (640, 480)) ["a.mp4"; "b.mp4"]%string 5 =
    Video.mk 5 640 480 :: [Video.mk 6 640 480] /\
  page_final
    (go (fun _ => (640, 480))
       (Document.mk ["a.mp4"; "b.mp4"]%string "nop" Sample.output)
       (mkPage None 5)) =
  mkPage
    (Some (mkInstance IsPassthrough
             (mkObj Sample.output [Video.mk 5 640 480; Video.mk 6 640 480]
                (Some true) (Num 0)))) 7.
Proof.
  split; [reflexivity |]. split; [reflexivity |].
  rewrite (go_nop_starts_first_video (fun _ => (640, 480))
             (Document.mk ["a.mp4"; "b.mp4"]%string "nop" Sample.output)
             (mkPage None 5) (Video.mk 5 640 480) [Video.mk 6 640 480]
             eq_refl eq_refl).
  reflexivity.
Defined.

(** X23: A click in mode "crossfade" leaves a Crossfade composition on which
    [play()] has done nothing: no video is started.  From then on every
    frame paints the black background only and keeps the frame loop going,
    and the end of a video changes nothing. *)
Theorem go_crossfade_draws_background_only (media : string -> Q * Q)
  (doc : Document.t) (pg : Page) :
  Document.composition_type doc = "crossfade"%string ->
  let vids := copies media (Document.shelf doc) (created pg) in
  let after :=
    mkPage
      (Some (mkInstance IsCrossfade
               (Crossfade.new (Document.output doc) vids)))
      (created pg + List.length (Document.shelf doc)) in
  go media doc pg =
    mkPageResult (Normal tt) after
      (stopping pg ++ [ConsoleLog "Compositing using mode" "crossfade"]) /\
  drawFrame after =
    mkPageResult (Normal tt) after
      (map OnComposition (background (Document.output doc))
       ++ [RequestAnimationFrame]) /\
  ended after = mkPageResult (Normal tt) after [].
Proof.
  intros Hmode. cbv zeta. split_all; try reflexivity.
  rewrite go_run. cbv zeta. rewrite Hmode. reflexivity.
Qed.

Lemma go_crossfade_draws_background_only_witness :
  Document.composition_type
    (Document.mk ["a.mp4"%string] "crossfade" Sample.output)
    = "crossfade"%string /\
  go (fun _ => (640, 480))
     (Document.mk ["a.mp4"%string] "crossfade" Sample.output)
     (mkPage None 0) =
  mkPageResult (Normal tt)
    (mkPage
       (Some (mkInstance IsCrossfade
                (Crossfade.new Sample.output [Video.mk 0 640 480]))) 1)
    [ConsoleLog "Compositing using mode" "crossfade"].
Proof.
  split; [reflexivity |].
  apply (go_crossfade_draws_background_only (fun _ => (640, 480))
           (Document.mk ["a.mp4"%string] "crossfade" Sample.output)
           (mkPage None 0)).
  reflexivity.
Defined.

Lemma frame_requests_app (t1 t2 : list PageEvent) :
  frame_requests (t1 ++ t2) = (frame_requests t1 + frame_requests t2)%nat.
Proof. unfold frame_requests. now rewrite filter_app, length_app. Qed.

Lemma frame_requests_on_composition (t : list Event) :
  frame_requests (map OnComposition t) = 0%nat.
Proof. induction t as [| e t IH]; [reflexivity | exact IH]. Qed.

Lemma frame_requests_stopping (pg : Page) :
  frame_requests (stopping pg) = 0%nat.
Proof.
  unfold stopping. destruct (videoComposition pg);
    [apply frame_requests_on_composition | reflexivity].
Qed.

(** The three ways [draw()] can go. *)
Lemma draw_cases (o : Obj) :
  (outcome (Passthrough.draw o) = Normal tt /\
   ~ (truthy (playing o) = true /\ Idx.get (videos o) (vidIdx o) = None)) \/
  (outcome (Passthrough.draw o) = Throw TypeError /\
   truthy (playing o) = true /\ Idx.get (videos o) (vidIdx o) = None).
Proof.
  destruct (truthy (playing o)) eqn:Hp.
  - destruct (Idx.get (videos o) (vidIdx o)) as [v |] eqn:Hget.
    + left. rewrite (draw_playing o v Hp Hget).
      split; [reflexivity | intros [_ H]; discriminate].
    + right. assert (Hhook : Passthrough.drawInContext o =
                             mkResult Obj unit (Throw TypeError) o []).
      { unfold Passthrough.drawInContext. run. now rewrite Hp, Hget. }
      unfold Passthrough.draw, Composition.draw, ctx. run.
      unfold bind. rewrite Hhook. auto.
  - left. rewrite (draw_not_playing o Hp).
    split; [reflexivity | intros [H _]; discriminate].
Qed.

Lemma drawFrame_run (pg : Page) :
  drawFrame pg =
  match videoComposition pg with
  | None => mkPageResult (Normal tt) pg [RequestAnimationFrame]
  | Some inst =>
      let r := Method.draw (class inst) (object inst) in
      let pg1 := mkPage (Some (mkInstance (class inst) (final r)))
                   (created pg) in
      match outcome r with
      | Normal _ =>
          mkPageResult (Normal tt) pg1
            (map OnComposition (events r) ++ [RequestAnimationFrame])
      | Throw e => mkPageResult (Throw e) pg1 (map OnComposition (events r))
      end
  end.
Proof.
  unfold drawFrame. prun. destruct pg as [[inst |] n];
    cbn [videoComposition is_set created]; [| reflexivity].
  unfold pbind, on_composition. cbn [videoComposition created page_outcome].
  destruct (outcome (Method.draw (class inst) (object inst))) as [[] | e];
    reflexivity.
Qed.

(** X24: [drawFrame] asks for the next animation frame exactly once when it
    returns normally and not at all when it throws; it throws exactly when
    the page holds a Passthrough composition that is playing with
    [videos[vidIdx]] undefined. *)
Theorem drawFrame_rearms_unless_draw_throws (pg : Page) :
  let r := drawFrame pg in
  (page_outcome r = Normal tt <-> frame_requests (page_events r) = 1%nat) /\
  (page_outcome r = Throw TypeError <->
   frame_requests (page_events r) = 0%nat) /\
  (page_outcome r = Throw TypeError <->
   exists o,
     videoComposition pg = Some (mkInstance IsPassthrough o) /\
     truthy (playing o) = true /\
     Idx.get (videos o) (vidIdx o) = None).
Proof.
  cbv zeta. rewrite drawFrame_run.
  destruct pg as [[[[|] o] |] n]; cbn [videoComposition class object created].
  - cbv zeta. cbn [Method.draw].
    destruct (draw_cases o) as [[Hout Hnot] | [Hout [Hp Hget]]];
      rewrite Hout; cbn [page_outcome page_events].
    + rewrite frame_requests_app, frame_requests_on_composition.
      cbn. split_all; split; intros H; try reflexivity; try discriminate.
      destruct H as (o' & Ho & Hp & Hget). injection Ho as <-. tauto.
    + rewrite frame_requests_on_composition.
      split_all; split; intros H; try reflexivity; try discriminate.
      now exists o.
  - cbn. split_all; split; intros H; try reflexivity; try discriminate.
    destruct H as (o' & Ho & _). discriminate.
  - cbn. split_all; split; intros H; try reflexivity; try discriminate.
    destruct H as (o' & Ho & _). discriminate.
Qed.

(** X25: A click in mode "nop" with an empty shelf starts a Passthrough
    composition on no video; the next frame paints the background, throws a
    TypeError and does not ask for another animation frame. *)
Theorem go_nop_on_empty_shelf_ends_frame_loop (media : string -> Q * Q)
  (doc : Document.t) (pg : Page) :
  Document.composition_type doc = "nop"%string ->
  Document.shelf doc = [] ->
  let after :=
    mkPage
      (Some (mkInstance IsPassthrough
               (mkObj (Document.output doc) [] (Some true) (Num (-1)))))
      (created pg) in
  go media doc pg =
    mkPageResult (Normal tt) after
      (stopping pg ++ [ConsoleLog "Compositing using mode" "nop"]) /\
  drawFrame after =
    mkPageResult (Throw TypeError) after
      (map OnComposition
         [Ctx Save;
          Ctx (RectPath 0 0 (Canvas.width (Document.output doc))
                 (Canvas.height (Document.output doc)));
          Ctx (SetFillStyle "black"); Ctx Fill]) /\
  frame_requests (page_events (drawFrame after)) = 0%nat.
Proof.
  intros Hmode Hshelf. cbv zeta. split_all; try reflexivity.
  rewrite go_run. cbv zeta. rewrite Hmode, Hshelf.
  cbn [List.length copies]. rewrite Nat.add_0_r. reflexivity.
Qed.

Lemma go_nop_on_empty_shelf_ends_frame_loop_witness :
  Document.composition_type (Document.mk [] "nop" Sample.output)
    = "nop"%string /\
  Document.shelf (Document.mk [] "nop" Sample.output) = [] /\
  frame_requests
    (page_events
       (drawFrame
          (mkPage
             (Some (mkInstance IsPassthrough
                      (mkObj Sample.output [] (Some true) (Num (-1)))))
             0))) = 0%nat.
Proof.
  split; [reflexivity |]. split; [reflexivity |].
  apply (go_nop_on_empty_shelf_ends_frame_loop (fun _ => (640, 480))
           (Document.mk [] "nop" Sample.output) (mkPage None 0));
    reflexivity.
Defined.

Lemma copies_nonempty (media : string -> Q * Q) (srcs : list string)
  (next : nat) :
  srcs <> [] -> copies media srcs next <> [].
Proof. destruct srcs; [congruence | discriminate]. Qed.

(** A click that does not start a Passthrough on an empty list returns
    normally, asks for no animation frame and leaves a healthy page. *)
Lemma go_keeps_healthy (media : string -> Q * Q) (doc : Document.t)
  (pg : Page) :
  has_videos_if_nop doc ->
  page_outcome (go media doc pg) = Normal tt /\
  healthy (page_final (go media doc pg)) /\
  frame_requests (page_events (go media doc pg)) = 0%nat.
Proof.
  intros Hsafe. rewrite go_run. cbv zeta.
  cbn [page_outcome page_final page_events].
  rewrite frame_requests_app, frame_requests_stopping.
  change (ConsoleLog ?a ?b :: ?t) with ([ConsoleLog a b] ++ t).
  rewrite frame_requests_app.
  destruct (String.eqb (Document.composition_type doc) "nop") eqn:Hnop.
  - apply String.eqb_eq in Hnop. specialize (Hsafe Hnop).
    pose proof (copies_nonempty media _ (created pg) Hsafe) as Hne.
    prun. unfold on_composition, set_composition.
    cbn [videoComposition class object created Method.play page_outcome
         page_final page_events].
    destruct (play_run (Passthrough.new (Document.output doc)
                          (copies media (Document.shelf doc) (created pg)))
                Hne) as [w [Hw Hrun]].
    rewrite Hrun. cbn [outcome final events].
    rewrite frame_requests_on_composition. split_all; try reflexivity.
    unfold healthy, Passthrough.new, Composition.new.
    cbn [videoComposition videos canvas].
    split; [exact Hne |].
    apply in_bounds_intro with 0%Z; [reflexivity |].
    cbn [videos]. pose proof (nonempty_length _ Hne). lia.
  - destruct (String.eqb (Document.composition_type doc) "crossfade");
      prun; split_all; reflexivity.
Qed.

Lemma page_call_keeps_healthy (media : string -> Q * Q) (c : PageCall)
  (pg : Page) :
  healthy pg -> safe_call c ->
  page_outcome (page_call media c pg) = Normal tt /\
  healthy (page_final (page_call media c pg)) /\
  frame_requests (page_events (page_call media c pg)) =
    (if is_frame c then 1 else 0)%nat.
Proof.
  intros Hh Hsafe. destruct c as [doc | |]; cbn [page_call is_frame].
  - now apply go_keeps_healthy.
  - rewrite drawFrame_run.
    destruct pg as [[[[|] o] |] n]; cbn [videoComposition class object created];
      try (split_all; reflexivity).
    cbv zeta. cbn [Method.draw].
    destruct Hh as [Hvs (i & v & Hidx & Hi & Hv)].
    destruct (draw_defined o v Hv) as [Hout Hfin]. rewrite Hout, Hfin.
    cbn [page_outcome page_final page_events].
    rewrite frame_requests_app, frame_requests_on_composition.
    split_all; try reflexivity.
    unfold healthy. cbn [videoComposition]. split; [exact Hvs |].
    now exists i, v.
  - unfold ended. prun.
    destruct pg as [[[[|] o] |] n]; cbn [videoComposition class object created];
      try (split_all; [reflexivity | exact Hh | reflexivity]).
    unfold on_composition. cbn [videoComposition class object created].
    destruct Hh as [Hvs Hin].
    destruct (call_preserves CallHandleEnd o Hvs Hin)
      as (Hout & _ & Hvid & Hin').
    cbn [call] in *. rewrite Hout.
    cbn [page_outcome page_final page_events].
    rewrite frame_requests_on_composition. split_all; try reflexivity.
    unfold healthy. cbn [videoComposition]. rewrite Hvid. now split.
Qed.

(** X26: The frame loop keeps running: from a page with no composition, or with
    one that has videos and a valid index, and as long as no click starts a
    Passthrough composition on an empty shelf, every click, frame and end of
    a video returns normally, and each frame asks for the next one exactly
    once. *)
Theorem frame_loop_keeps_running (media : string -> Q * Q)
  (cs : list PageCall) (pg : Page) :
  healthy pg ->
  Forall safe_call cs ->
  let r := page_calls media cs pg in
  page_outcome r = Normal tt /\
  healthy (page_final r) /\
  frame_requests (page_events r) = List.length (filter is_frame cs).
Proof.
  revert pg. induction cs as [| c rest IH]; intros pg Hh Hsafe; cbv zeta.
  - cbn. auto.
  - inversion Hsafe as [| ? ? Hc Hrest]; subst.
    destruct (page_call_keeps_healthy media c pg Hh Hc)
      as (Hout & Hh' & Hreq).
    cbn [page_calls]. unfold pbind. rewrite Hout.
    cbn [page_outcome page_final page_events].
    destruct (IH (page_final (page_call media c pg)) Hh' Hrest)
      as (Hout2 & Hh2 & Hreq2).
    split_all; [exact Hout2 | exact Hh2 |].
    rewrite frame_requests_app, Hreq, Hreq2. cbn [filter].
    destruct (is_frame c); reflexivity.
Qed.

Lemma frame_loop_keeps_running_witness :
  healthy (mkPage None 0) /\
  Forall safe_call
    [Frame; Click (Document.mk ["a.mp4"; "b.mp4"]%string "nop" Sample.output);
     Frame; Ended; Frame; Click (Document.mk [] "fade" Sample.output);
     Frame] /\
  frame_requests
    (page_events
       (page_calls (fun _ => (640, 480))
          [Frame;
           Click (Document.mk ["a.mp4"; "b.mp4"]%string "nop" Sample.output);
           Frame; Ended; Frame; Click (Document.mk [] "fade" Sample.output);
           Frame]
          (mkPage None 0))) = 4%nat.
Proof.
  assert (Hh : healthy (mkPage None 0)) by exact I.
  assert (Hsafe : Forall safe_call
    [Frame; Click (Document.mk ["a.mp4"; "b.mp4"]%string "nop" Sample.output);
     Frame; Ended; Frame; Click (Document.mk [] "fade" Sample.output);
     Frame]).
  { repeat constructor; intros H; discriminate. }
  split; [exact Hh |]. split; [exact Hsafe |].
  apply (frame_loop_keeps_running (fun _ => (640, 480)) _ (mkPage None 0)
           Hh Hsafe).
Defined.

(** ** The template method of the base class *)

(** X27: For every hook a subclass may supply, [draw()] fills the canvas with
    black before the hook makes any call.  When the hook returns normally
    its calls are followed by the [restore] that matches the [save] of
    [draw()], so a hook that leaves the [save] depth as it found it gives a
    balanced trace; when the hook throws, [draw()] throws the same error
    and the [restore] is not reached. *)
Theorem composition_draw_template (hook : M Obj unit) (s : Obj) :
  let fill :=
    [Ctx Save;
     Ctx (RectPath 0 0 (Canvas.width (canvas s)) (Canvas.height (canvas s)));
     Ctx (SetFillStyle "black"); Ctx Fill] in
  (outcome (hook s) = Normal tt ->
   Composition.draw hook s =
     mkResult Obj unit (Normal tt) (final (hook s))
       (fill ++ events (hook s) ++ [Ctx Restore]) /\
   ((forall d, save_depth (events (hook s)) d = Some d) ->
    balanced (events (Composition.draw hook s)))) /\
  (forall e, outcome (hook s) = Throw e ->
   Composition.draw hook s =
     mkResult Obj unit (Throw e) (final (hook s)) (fill ++ events (hook s))).
Proof.
  cbv zeta. split.
  - intros Hout.
    assert (Hrun : Composition.draw hook s =
              mkResult Obj unit (Normal tt) (final (hook s))
                ([Ctx Save;
                  Ctx (RectPath 0 0 (Canvas.width (canvas s))
                         (Canvas.height (canvas s)));
                  Ctx (SetFillStyle "black"); Ctx Fill]
                 ++ events (hook s) ++ [Ctx Restore])).
    { unfold Composition.draw, ctx. run. unfold bind. rewrite Hout.
      reflexivity. }
    split; [exact Hrun |].
    intros Hdepth. rewrite Hrun. cbn [events]. unfold balanced.
    cbn [app save_depth].
    now rewrite (save_depth_app _ [Ctx Restore] 1 1 (Hdepth 1%nat)).
  - intros e Hout. unfold Composition.draw, ctx. run. unfold bind.
    rewrite Hout. reflexivity.
Qed.

Lemma composition_draw_template_witness :
  outcome (Passthrough.drawInContext Sample.atLast) = Normal tt /\
  (forall d,
     save_depth (events (Passthrough.drawInContext Sample.atLast)) d
     = Some d) /\
  balanced
    (events (Composition.draw Passthrough.drawInContext Sample.atLast)) /\
  outcome (Passthrough.drawInContext
             (mkObj Sample.output [] (Some true) (Num (-1))))
    = Throw TypeError /\
  outcome (Composition.draw Passthrough.drawInContext
             (mkObj Sample.output [] (Some true) (Num (-1))))
    = Throw TypeError.
Proof.
  assert (Hout : outcome (Passthrough.drawInContext Sample.atLast)
                 = Normal tt) by reflexivity.
  assert (Hdepth : forall d,
            save_depth (events (Passthrough.drawInContext Sample.atLast)) d
            = Some d) by (intros d; reflexivity).
  assert (Hthrow : outcome (Passthrough.drawInContext
                              (mkObj Sample.output [] (Some true) (Num (-1))))
                   = Throw TypeError) by reflexivity.
  split; [exact Hout |]. split; [exact Hdepth |]. split.
  - exact (proj2 (proj1 (composition_draw_template
                           Passthrough.drawInContext Sample.atLast) Hout)
             Hdepth).
  - split; [exact Hthrow |].
    rewrite (proj2 (composition_draw_template Passthrough.drawInContext
                      (mkObj Sample.output [] (Some true) (Num (-1))))
               TypeError Hthrow).
    reflexivity.
Defined.
